(** * PageRank: the crawler, the transition model, the sampling estimator
      and the iterative estimator of [pagerank.py], embedded in Rocq.

    Pages are strings.  A corpus is a Python [dict] from a page to the
    [set] of pages it links to; a [dict] keeps its keys in insertion order
    and the iterative estimator updates its rank dictionary in that order,
    so a dictionary is an association list with distinct keys.  A link set
    is a finite set of strings.  Exceptions are explicit: a result is either
    a value or the exception that Python raises.

    The program computes with Python floats, that is with IEEE 754 binary64
    numbers.  Two embeddings of its arithmetic are given.

    - The exact one reads every float as the rational number it stands for
      and every operation as the exact operation ([Qc], the canonical
      rationals).  It describes the arithmetic the program writes down, free
      of rounding.  Statements that describe which values are read, written
      or compared, which exception is raised or which keys a mapping has are
      made in it; so are the bounds that are marked as bounds of exact
      arithmetic.
    - [Binary64] is the iterative estimator over the binary64 numbers of
      the kernel, rounding to nearest even as Python does.  Where rounding
      decides what the program does (whether the convergence loop stops,
      what the returned ranks add up to), it is the authority.

    [crawl] is embedded from the directory listing on; [main] parses the
    command line and prints, and only the calls it makes are covered. *)

From Stdlib Require Import QArith Qcanon Lqa.
From Stdlib Require Qcabs.
From Stdlib Require Import PrimFloat FloatOps.
From Stdlib Require Uint63.
From stdpp Require Import base decidable option list numbers strings gmap.

Local Open Scope Qc_scope.

(** ** Exceptions *)

Inductive exn : Set :=
  | KeyError
  | ZeroDivisionError
  | IndexError
  | ValueError.

Inductive result (A : Type) : Type :=
  | Ok (a : A)
  | Raise (e : exn).
Arguments Ok {A} a.
Arguments Raise {A} e.

(** Sequencing [x ← r; k]: the first exception aborts the computation. *)
Global Instance result_ret : MRet result := λ A a, Ok a.
Global Instance result_bind : MBind result := λ A B k r,
  match r with
  | Ok a => k a
  | Raise e => Raise e
  end.

(** [for x in xs: acc = body(acc, x)], stopping at the first exception. *)
Fixpoint for_each {A S} (body : S → A → result S) (xs : list A) (acc : S)
  : result S :=
  match xs with
  | [] => Ok acc
  | x :: xs' => acc' ← body acc x ; for_each body xs' acc'
  end.

(** ** Dictionaries *)

Abbreviation dict V := (list (string * V)%type).

Definition keys {V} (d : dict V) : list string := d.*1.
Definition values {V} (d : dict V) : list V := d.*2.

(** [d[k]] read: [KeyError] when [k] is absent. *)
Fixpoint dict_lookup {V} (d : dict V) (k : string) : option V :=
  match d with
  | [] => None
  | (k', v) :: d' => if decide (k = k') then Some v else dict_lookup d' k
  end.

Definition dict_get {V} (d : dict V) (k : string) : result V :=
  match dict_lookup d k with
  | Some v => Ok v
  | None => Raise KeyError
  end.

(** [d[k] = v]: replaces the value in place, or appends a new key. *)
Fixpoint dict_set {V} (d : dict V) (k : string) (v : V) : dict V :=
  match d with
  | [] => [(k, v)]
  | (k', v') :: d' =>
      if decide (k = k') then (k, v) :: d' else (k', v') :: dict_set d' k v
  end.

(** ** Arithmetic *)

Definition Qc_of_nat (n : nat) : Qc := Qc_of_Z (Z.of_nat n).

(** Python's true division [a / b]. *)
Definition pydiv (a b : Qc) : result Qc :=
  if decide (b = 0) then Raise ZeroDivisionError else Ok (a / b).

Definition Qcsum (l : list Qc) : Qc := foldr Qcplus 0 l.

(** ** The link graph *)

Abbreviation corpus := (dict (gset string)).

(** [len(s)] and [for x in s] of a Python set. *)
Definition set_len (s : gset string) : nat := size s.
Definition set_iter (s : gset string) : list string := elements s.

(** ** [transition_model] *)

Definition transition_model (c : corpus) (page : string) (damping_factor : Qc)
  : result (dict Qc) :=
  links ← dict_get c page ;
  randomPagePercent ← pydiv (1 - damping_factor) (Qc_of_nat (length c)) ;
  LinkedPagePercent ← pydiv damping_factor (Qc_of_nat (set_len links)) ;
  let distribution :=
    foldl (λ dist page, dict_set dist page randomPagePercent) [] (keys c) in
  for_each (λ dist nowPage,
              v ← dict_get dist nowPage ;
              Ok (dict_set dist nowPage (v + LinkedPagePercent)))
           (set_iter links) distribution.

(** ** The [random] module

    The generator is an oracle: its [k]-th call consumes the [k]-th raw
    number of a sequence the caller cannot influence.  [_randbelow(n)]
    reduces it modulo [n]; [random()] returns a 53-bit fraction in [0,1).
    Theorems about the sampler quantify over every oracle. *)

Definition rng := nat → Z.

Definition randbelow (g : rng) (pos : nat) (n : nat) : nat :=
  Z.to_nat (g pos `mod` Z.of_nat n).

Definition random (g : rng) (pos : nat) : Qc :=
  Qc_of_Z (g pos `mod` 2 ^ 53) / Qc_of_Z (2 ^ 53).

(** [random.choice(seq)] *)
Definition random_choice {A} (g : rng) (pos : nat) (seq : list A) : result A :=
  match seq with
  | [] => Raise IndexError
  | _ =>
      match seq !! randbelow g pos (length seq) with
      | Some x => Ok x
      | None => Raise IndexError
      end
  end.

(** [itertools.accumulate(weights)] *)
Fixpoint accumulate_from (acc : Qc) (ws : list Qc) : list Qc :=
  match ws with
  | [] => []
  | w :: ws' => (acc + w) :: accumulate_from (acc + w) ws'
  end.
Definition accumulate (ws : list Qc) : list Qc := accumulate_from 0 ws.

(** [bisect.bisect_right(a, x, lo, hi)]; the interval shrinks at every
    step, so [hi - lo] steps are enough. *)
Fixpoint bisect_loop (fuel : nat) (a : list Qc) (x : Qc) (lo hi : nat) : nat :=
  match fuel with
  | O => lo
  | S fuel' =>
      if decide (lo < hi)%nat then
        let mid := ((lo + hi) / 2)%nat in
        match a !! mid with
        | Some am =>
            if decide (x < am) then bisect_loop fuel' a x lo mid
            else bisect_loop fuel' a x (mid + 1) hi
        | None => lo
        end
      else lo
  end.
Definition bisect_right (a : list Qc) (x : Qc) (lo hi : nat) : nat :=
  bisect_loop (hi - lo) a x lo hi.

(** [random.choices(population, weights, k=1)[0]].  The weights are summed
    exactly here, so that their total is a finite number and the test
    [isfinite(total)] of the library has nothing to reject. *)
Definition random_choices {A} (g : rng) (pos : nat)
    (population : list A) (weights : list Qc) : result A :=
  let n := length population in
  let cum_weights := accumulate weights in
  if decide (length cum_weights = n) then
    match last cum_weights with
    | None => Raise IndexError
    | Some total =>
        if decide (total ≤ 0) then Raise ValueError
        else
          let hi := (n - 1)%nat in
          match population !! bisect_right cum_weights (random g pos * total) 0 hi with
          | Some x => Ok x
          | None => Raise IndexError
          end
    end
  else Raise ValueError.

(** ** [sample_pagerank] *)

(** [d[k] += v] *)
Definition dict_incr (d : dict Z) (k : string) (v : Z) : result (dict Z) :=
  old ← dict_get d k ; Ok (dict_set d k (old + v)%Z).

(** The [while n > i] loop: [steps] iterations remain, the generator has
    been called [pos] times. *)
Fixpoint sample_loop (g : rng) (c : corpus) (damping_factor : Qc)
    (steps pos : nat) (chosen : string) (countDict : dict Z)
  : result (dict Z) :=
  match steps with
  | O => Ok countDict
  | S steps' =>
      model ← transition_model c chosen damping_factor ;
      chosen' ← random_choices g pos (keys model) (values model) ;
      countDict' ← dict_incr countDict chosen' 1 ;
      sample_loop g c damping_factor steps' (S pos) chosen' countDict'
  end.

(** The visit counters when the walk is over. *)
Definition sample_counts (g : rng) (c : corpus) (damping_factor : Qc) (n : Z)
  : result (dict Z) :=
  let keys := keys c in
  let countDict := foldl (λ cd key, dict_set cd key 0%Z) [] keys in
  chosen ← random_choice g 0 keys ;
  countDict ← dict_incr countDict chosen 1 ;
  sample_loop g c damping_factor (Z.to_nat (n - 1)) 1 chosen countDict.

(** The estimates are the exact quotients [count / n]; the program rounds
    each of them to binary64. *)
Definition sample_pagerank (g : rng) (c : corpus) (damping_factor : Qc) (n : Z)
  : result (dict Qc) :=
  countDict ← sample_counts g c damping_factor n ;
  for_each (λ probDict '(page, count),
              p ← pydiv (Qc_of_Z count) (Qc_of_Z n) ;
              Ok (dict_set probDict page p))
           countDict [].

(** ** [iterate_pagerank] *)

Definition minChange : Qc := Q2Qc (1 # 1000).

(** The inner [for link, linked_pages in corpus.items()] loop. *)
Definition rank_sum (c : corpus) (damping_factor : Qc) (page : string)
    (probDict : dict Qc) (new_rank : Qc) : result Qc :=
  for_each (λ new_rank '(link, linked_pages),
              if decide (page ∈ linked_pages) then
                r ← dict_get probDict link ;
                t ← pydiv (damping_factor * r) (Qc_of_nat (set_len linked_pages)) ;
                Ok (new_rank + t)
              else Ok new_rank)
           c new_rank.

(** The body of [for page in corpus.keys()]: the rank of [page] is
    recomputed and stored into [probDict] straight away. *)
Definition rank_step (c : corpus) (damping_factor : Qc)
    (st : dict Qc * bool) (page : string) : result (dict Qc * bool) :=
  let '(probDict, flag) := st in
  new_rank ← pydiv (1 - damping_factor) (Qc_of_nat (length c)) ;
  new_rank ← rank_sum c damping_factor page probDict new_rank ;
  old ← dict_get probDict page ;
  let flag := if decide (minChange < Qcabs.Qcabs (new_rank - old)) then true else flag in
  Ok (dict_set probDict page new_rank, flag).

(** One pass of the [while True] loop, up to the test of [flag]. *)
Definition rank_pass (c : corpus) (damping_factor : Qc) (probDict : dict Qc)
  : result (dict Qc * bool) :=
  for_each (rank_step c damping_factor) (keys c) (probDict, false).

(** The [while True] loop; [None] when [fuel] passes were not enough. *)
Fixpoint rank_loop (fuel : nat) (c : corpus) (damping_factor : Qc)
    (probDict : dict Qc) : option (result (dict Qc)) :=
  match fuel with
  | O => None
  | S fuel' =>
      match rank_pass c damping_factor probDict with
      | Raise e => Some (Raise e)
      | Ok (probDict', flag) =>
          if flag then rank_loop fuel' c damping_factor probDict'
          else Some (Ok probDict')
      end
  end.

Definition iterate_pagerank (fuel : nat) (c : corpus) (damping_factor : Qc)
  : option (result (dict Qc)) :=
  match pydiv 1 (Qc_of_nat (length c)) with
  | Raise e => Some (Raise e)
  | Ok start_value =>
      let probDict :=
        foldl (λ pd key, dict_set pd key start_value) [] (keys c) in
      rank_loop fuel c damping_factor probDict
  end.

(** ** [iterate_pagerank] in binary64

    The same function over the binary64 numbers of the kernel: every
    operation is the one of the source and rounds to nearest even, as the
    float type of Python does; [inf] and [nan] behave as IEEE 754 says (a
    comparison with [nan] is false, and [+], [-], [*] on floats raise
    nothing).  Every divisor of the function is a length.  Python converts
    it to a float, which is zero exactly when the length is, and the division
    raises [ZeroDivisionError] in that case. *)

Module Binary64.

(** [float(n)] for a length [n].  A length is below [2^63]; the conversion
    is exact up to [2^53] and correctly rounded above. *)
Definition float_of_nat (n : nat) : float :=
  PrimFloat.of_uint63 (Uint63.of_Z (Z.of_nat n)).

(** [a / n] for a float [a] and a length [n]; also [1 / n] for the integer
    [1], which for a length below [2^53] is the quotient of the two converted
    integers. *)
Definition pydiv (a : float) (n : nat) : result float :=
  if decide (n = 0%nat) then Raise ZeroDivisionError
  else Ok (a / float_of_nat n)%float.

(** The floats that Python reads [0.001] and [0.85] as. *)
Definition minChange : float := 0x1.0624dd2f1a9fcp-10%float.
Definition DAMPING : float := 0x1.b333333333333p-1%float.

Definition rank_sum (c : corpus) (damping_factor : float) (page : string)
    (probDict : dict float) (new_rank : float) : result float :=
  for_each (λ new_rank '(link, linked_pages),
              if decide (page ∈ linked_pages) then
                r ← dict_get probDict link ;
                t ← pydiv (damping_factor * r)%float (set_len linked_pages) ;
                Ok (new_rank + t)%float
              else Ok new_rank)
           c new_rank.

Definition rank_step (c : corpus) (damping_factor : float)
    (st : dict float * bool) (page : string) : result (dict float * bool) :=
  let '(probDict, flag) := st in
  new_rank ← pydiv (1 - damping_factor)%float (length c) ;
  new_rank ← rank_sum c damping_factor page probDict new_rank ;
  old ← dict_get probDict page ;
  let flag :=
    if PrimFloat.ltb minChange (PrimFloat.abs (new_rank - old)%float)
    then true else flag in
  Ok (dict_set probDict page new_rank, flag).

Definition rank_pass (c : corpus) (damping_factor : float) (probDict : dict float)
  : result (dict float * bool) :=
  for_each (rank_step c damping_factor) (keys c) (probDict, false).

Fixpoint rank_loop (fuel : nat) (c : corpus) (damping_factor : float)
    (probDict : dict float) : option (result (dict float)) :=
  match fuel with
  | O => None
  | S fuel' =>
      match rank_pass c damping_factor probDict with
      | Raise e => Some (Raise e)
      | Ok (probDict', flag) =>
          if flag then rank_loop fuel' c damping_factor probDict'
          else Some (Ok probDict')
      end
  end.

Definition iterate_pagerank (fuel : nat) (c : corpus) (damping_factor : float)
  : option (result (dict float)) :=
  match pydiv 1%float (length c) with
  | Raise e => Some (Raise e)
  | Ok start_value =>
      let probDict :=
        foldl (λ pd key, dict_set pd key start_value) [] (keys c) in
      rank_loop fuel c damping_factor probDict
  end.

End Binary64.

(** ** [crawl]

    Listing the directory, reading a file and [re.findall] are done by the
    operating system and the [re] module.  Their results are the input
    here: a listing gives, for every file name that [os.listdir] returns,
    the list of [href] values that [re.findall] finds in the file (for a
    name that does not end in [.html] the file is never opened and the list
    is ignored). *)

(** [s.endswith(suffix)] *)
Fixpoint endswith (s suffix : string) : bool :=
  if String.eqb s suffix then true
  else match s with
       | EmptyString => false
       | String _ s' => endswith s' suffix
       end.

(** The first loop: [pages[filename] = set(links) - {filename}]. *)
Definition crawl_read (listing : list (string * list string)) : corpus :=
  foldl (λ pages '(filename, links),
           if endswith filename ".html"
           then dict_set pages filename (list_to_set links ∖ {[filename]})
           else pages)
        [] listing.

(** The second loop: only the links to pages of the corpus are kept. *)
Definition crawl_filter (pages : corpus) : result corpus :=
  for_each (λ pages filename,
              links ← dict_get pages filename ;
              Ok (dict_set pages filename
                    (filter (λ link, link ∈ keys pages) links)))
           (keys pages) pages.

Definition crawl (listing : list (string * list string)) : result corpus :=
  crawl_filter (crawl_read listing).

(** * Specification-side definitions *)

(** ** Well-formed inputs *)

(** A link graph as the crawler builds it: distinct keys, no self-loop, no
    link to a page outside the corpus. *)
Definition valid_corpus (c : corpus) : Prop :=
  NoDup (keys c) ∧
  Forall (λ e, (fst e ∉ snd e) ∧ Forall (λ q, q ∈ keys c) (elements (snd e))) c.

(** No page of the corpus is a dead end. *)
Definition no_dead_end (c : corpus) : Prop := Forall (λ e, snd e ≠ ∅) c.

Definition valid_damping (d : Qc) : Prop := 0 < d ∧ d < 1.

(** The three conditions can be checked by computation. *)
#[global] Instance valid_corpus_dec (c : corpus) : Decision (valid_corpus c).
Proof. unfold valid_corpus. apply _. Defined.

#[global] Instance no_dead_end_dec (c : corpus) : Decision (no_dead_end c).
Proof. unfold no_dead_end. apply _. Defined.

#[global] Instance valid_damping_dec (d : Qc) : Decision (valid_damping d).
Proof. unfold valid_damping. apply _. Defined.

(** ** What the specification describes where the code differs *)

(** The uniform distribution [1/N]. *)
Definition uniform (c : corpus) : dict Qc :=
  map (λ k, (k, 1 / Qc_of_nat (length c))) (keys c).

(** The inner sum of the specification: a page without outbound links
    counts as if it linked to every page of the corpus. *)
Definition rank_sum_spec (c : corpus) (d : Qc) (page : string)
    (probDict : dict Qc) (new_rank : Qc) : result Qc :=
  for_each (λ new_rank '(link, linked_pages),
              if decide (linked_pages = ∅) then
                r ← dict_get probDict link ;
                t ← pydiv (d * r) (Qc_of_nat (length c)) ;
                Ok (new_rank + t)
              else if decide (page ∈ linked_pages) then
                r ← dict_get probDict link ;
                t ← pydiv (d * r) (Qc_of_nat (set_len linked_pages)) ;
                Ok (new_rank + t)
              else Ok new_rank)
           c new_rank.

(** ** Sample inputs *)

(** The damping factor and the sample count the program is run with. *)
Definition DAMPING : Qc := Q2Qc (85 # 100).
Definition SAMPLES : Z := 10000.

(** A has one in-link from each of B and C; no page is a dead end. *)
Definition corpus_abc : corpus :=
  [("A", {["B"]}); ("B", {["A"]}); ("C", {["A"]})]%string.

(** A links to B, and B links nowhere. *)
Definition corpus_dead_end : corpus := [("A", {["B"]}); ("B", ∅)]%string.

(** A and B link to each other. *)
Definition corpus_cycle : corpus := [("A", {["B"]}); ("B", {["A"]})]%string.

(** A single page without links. *)
Definition corpus_single : corpus := [("A", ∅)]%string.




(** The comparison tolerance of the specification, [1e-9]. *)
Definition tolerance : Qc := Q2Qc (1 # 1000000000).

(** ** Reading binary64 results *)

(** The rational number a finite float stands for. *)
Definition float_to_Qc (x : float) : option Qc :=
  match Prim2SF x with
  | SpecFloat.S754_zero _ => Some 0
  | SpecFloat.S754_finite s m e =>
      let v := Q2Qc (inject_Z (Zpos m) * Qpower (2 # 1) e) in
      Some (if s then - v else v)
  | _ => None
  end.

(** The exact sum of a list of finite floats. *)
Definition float_sum (l : list float) : option Qc :=
  foldr (λ x acc, v ← float_to_Qc x ; s ← acc ; Some (v + s)) (Some 0) l.

(** The rank a binary64 dictionary holds for a page ([0] for an absent
    key). *)
Definition float_rank_of (pd : dict float) (k : string) : float :=
  default 0%float (dict_lookup pd k).

(** The test of the source, [abs(new - old) > minChange], in binary64. *)
Definition float_moved (new old : float) : bool :=
  PrimFloat.ltb Binary64.minChange (PrimFloat.abs (new - old)%float).

(** ** Rank vectors as functions *)

(** The rank a dictionary holds for a page ([0] for an absent key). *)
Definition rank_of (pd : dict Qc) (k : string) : Qc :=
  default 0 (dict_lookup pd k).

Definition fupd (ρ : string → Qc) (p : string) (v : Qc) : string → Qc :=
  λ k, if decide (k = p) then v else ρ k.

Definition base_rank (c : corpus) (d : Qc) : Qc :=
  (1 - d) / Qc_of_nat (length c).

(** The share of the rank of a page with link set [L] that flows to [p]. *)
Definition share (p : string) (L : gset string) : Qc :=
  if decide (p ∈ L) then 1 / Qc_of_nat (size L) else 0.

(** [Σ_q w L_q · g q] over the entries [(q, L_q)] of the corpus. *)
Definition wsum (c : corpus) (w : gset string → Qc) (g : string → Qc) : Qc :=
  Qcsum (map (λ e, w e.2 * g e.1) c).

(** [d · Σ_q share p L_q · ρ q], the sum the inner loop accumulates. *)
Definition inflow (c : corpus) (d : Qc) (ρ : string → Qc) (p : string) : Qc :=
  d * wsum c (share p) ρ.

(** [Σ 1/|L_q|] over the pages [q] that link to [p]. *)
Definition in_share (c : corpus) (p : string) : Qc := wsum c (share p) (λ _, 1).

(** The part of the rank of a page with link set [L] that flows to [rows]. *)
Definition colw (rows : list string) (L : gset string) : Qc :=
  Qcsum (map (λ p, share p L) rows).

(** In-place sweep over [rows]: every page is recomputed from the current
    vector, in which the pages before it already carry their new ranks. *)
Fixpoint sweep (c : corpus) (d : Qc) (rows : list string) (ρ : string → Qc)
  : string → Qc :=
  match rows with
  | [] => ρ
  | p :: rows' => sweep c d rows' (fupd ρ p (base_rank c d + inflow c d ρ p))
  end.

(** Synchronous pass, following the specification: every new rank is
    computed from the rank vector of the previous pass. *)
Definition jacobi_pass (c : corpus) (d : Qc) (prev : dict Qc) : result (dict Qc) :=
  for_each (λ next page,
              new_rank ← pydiv (1 - d) (Qc_of_nat (length c)) ;
              new_rank ← rank_sum c d page prev new_rank ;
              Ok (dict_set next page new_rank))
           (keys c) prev.


(** The distance between two rank vectors at a page. *)
Definition gap (ρ1 ρ2 : string → Qc) : string → Qc :=
  λ k, Qcabs.Qcabs (ρ1 k - ρ2 k).

(** [Σ_q g q] over the pages of the corpus. *)
Definition total (c : corpus) (g : string → Qc) : Qc := wsum c (λ _, 1) g.

(** The part of [Σ_q g q] that the pages pass on to pages later in the
    sweep: these read the new value of [q] within the same pass. *)
Fixpoint later_flow (cs : corpus) (g : string → Qc) : Qc :=
  match cs with
  | [] => 0
  | (q, L) :: cs' => g q * colw (keys cs') L + later_flow cs' g
  end.

(** The weighted 1-norm in which one pass is a contraction. *)
Definition wnorm (c : corpus) (d : Qc) (g : string → Qc) : Qc :=
  total c g - d * later_flow c g.

(** The total of the visit counters. *)
Definition Zsum (l : list Z) : Z := foldr Z.add 0%Z l.

(** What a finished walk leaves in the counters. *)
Definition walk_post (c : corpus) (cd : dict Z) (steps : nat) (cd' : dict Z) : Prop :=
  keys cd' = keys c
  ∧ Zsum (values cd') = (Zsum (values cd) + Z.of_nat steps)%Z
  ∧ (Forall (λ v, 0 ≤ v)%Z (values cd) → Forall (λ v, 0 ≤ v)%Z (values cd')).

(** * Properties *)

(** ** Exceptions and loops *)

Lemma bind_Ok {A B} (r : result A) (k : A → result B) (b : B) :
  mbind k r = Ok b ↔ ∃ a, r = Ok a ∧ k a = Ok b.
Proof.
  destruct r as [a|e]; simpl; split.
  - by exists a.
  - by intros (a' & [= <-] & ?).
  - done.
  - by intros (? & ? & _).
Qed.

Lemma bind_Ok_l {A B} (a : A) (k : A → result B) : mbind k (Ok a) = k a.
Proof. done. Qed.

Lemma bind_ext {A B} (r : result A) (k1 k2 : A → result B) :
  (∀ a, k1 a = k2 a) → mbind k1 r = mbind k2 r.
Proof. intros Hk. destruct r; [apply Hk|done]. Qed.

(** ** Dictionaries *)

Lemma dict_lookup_Some_keys {V} (d : dict V) k v :
  dict_lookup d k = Some v → k ∈ keys d.
Proof.
  induction d as [|[k' v'] d IH]; simpl; [done|].
  destruct (decide (k = k')) as [->|]; [left|right; auto].
Qed.

Lemma dict_lookup_is_Some {V} (d : dict V) k :
  k ∈ keys d ↔ is_Some (dict_lookup d k).
Proof.
  split; [|intros [v ?]; by eapply dict_lookup_Some_keys].
  induction d as [|[k' v'] d IH]; simpl; [by intros ?%elem_of_nil|].
  case_decide; [by eauto|]. intros [?|?]%elem_of_cons; [done|auto].
Qed.

Lemma dict_lookup_None {V} (d : dict V) k :
  k ∉ keys d ↔ dict_lookup d k = None.
Proof. rewrite dict_lookup_is_Some, eq_None_not_Some. done. Qed.

Lemma dict_get_Ok {V} (d : dict V) k v :
  dict_get d k = Ok v ↔ dict_lookup d k = Some v.
Proof. unfold dict_get. destruct (dict_lookup d k); naive_solver. Qed.

Lemma keys_dict_set_elem {V} (d : dict V) k v :
  k ∈ keys d → keys (dict_set d k v) = keys d.
Proof.
  induction d as [|[k' v'] d IH]; simpl; [by intros ?%elem_of_nil|].
  case_decide; subst; [done|].
  intros [?|?]%elem_of_cons; [done|]. unfold keys in *; simpl. f_equal; auto.
Qed.

Lemma keys_dict_set_fresh {V} (d : dict V) k v :
  k ∉ keys d → dict_set d k v = d ++ [(k, v)].
Proof.
  induction d as [|[k' v'] d IH]; simpl; [done|].
  intros Hk. apply not_elem_of_cons in Hk as [? ?].
  case_decide; [done|]. f_equal; auto.
Qed.

Lemma dict_lookup_set {V} (d : dict V) k v k' :
  dict_lookup (dict_set d k v) k' =
  if decide (k' = k) then Some v else dict_lookup d k'.
Proof.
  induction d as [|[k0 v0] d IH]; simpl.
  - by case_decide.
  - destruct (decide (k = k0)) as [->|Hk]; simpl.
    + destruct (decide (k' = k0)); done.
    + rewrite IH. destruct (decide (k' = k0)) as [->|]; [|done].
      by rewrite decide_False.
Qed.

Lemma rank_of_set (pd : dict Qc) k v k' :
  rank_of (dict_set pd k v) k' = fupd (rank_of pd) k v k'.
Proof. unfold rank_of, fupd. rewrite dict_lookup_set. by case_decide. Qed.

(** Filling an empty dictionary key by key. *)
Lemma fill_dict {V} (ks : list string) (v : V) (acc : dict V) :
  NoDup ks → (∀ k, k ∈ ks → k ∉ keys acc) →
  foldl (λ d k, dict_set d k v) acc ks = acc ++ map (λ k, (k, v)) ks.
Proof.
  revert acc. induction ks as [|k ks IH]; intros acc Hnd Hfresh; simpl.
  - by rewrite app_nil_r.
  - apply NoDup_cons in Hnd as [Hk Hnd].
    rewrite keys_dict_set_fresh by (apply Hfresh; left).
    rewrite IH; [by rewrite <-app_assoc|done|].
    intros k' Hk'. unfold keys. rewrite fmap_app, elem_of_app. simpl.
    intros [?|?%list_elem_of_singleton]; [|by subst].
    eapply Hfresh; [by right|done].
Qed.

Lemma fill_dict_nil {V} (ks : list string) (v : V) :
  NoDup ks → foldl (λ d k, dict_set d k v) [] ks = map (λ k, (k, v)) ks.
Proof. intros. rewrite fill_dict; [done..|]. intros ? _ ?%elem_of_nil. done. Qed.

Lemma keys_const {V} (ks : list string) (v : V) :
  keys (map (λ k, (k, v)) ks) = ks.
Proof. unfold keys. induction ks; simpl; [done|]. by f_equal. Qed.

Lemma values_const {V} (ks : list string) (v : V) :
  values (map (λ k, (k, v)) ks) = replicate (length ks) v.
Proof. unfold values. induction ks; simpl; [done|]. by f_equal. Qed.

Lemma dict_lookup_const {V} (ks : list string) (v : V) k :
  k ∈ ks → dict_lookup (map (λ k, (k, v)) ks) k = Some v.
Proof.
  induction ks as [|k' ks IH]; simpl; [by intros ?%elem_of_nil|].
  case_decide; [done|]. intros [?|?]%elem_of_cons; [done|auto].
Qed.

Lemma values_dict_set_Forall {V} (P : V → Prop) (d : dict V) k v :
  Forall P (values d) → P v → Forall P (values (dict_set d k v)).
Proof.
  unfold values. induction d as [|[k' v'] d IH]; simpl; intros Hd Hv.
  - by constructor.
  - apply Forall_cons in Hd as [? ?].
    case_decide; simpl; constructor; auto.
Qed.

(** ** Exact arithmetic: from [Qc] to [Q] and back *)

Lemma Qc_eq_Qeq (x y : Qc) : x = y ↔ (this x == this y)%Q.
Proof. split; [by intros ->|apply Qc_is_canon]. Qed.
Lemma Qc_neq_Qeq (x y : Qc) : x ≠ y ↔ ¬ (this x == this y)%Q.
Proof. by rewrite Qc_eq_Qeq. Qed.
Lemma this_Q2Qc q : (this (Q2Qc q) == q)%Q.
Proof. apply Qred_correct. Qed.
Lemma this_plus (x y : Qc) : (this (x + y) == this x + this y)%Q.
Proof. apply Qred_correct. Qed.
Lemma this_mult (x y : Qc) : (this (x * y) == this x * this y)%Q.
Proof. apply Qred_correct. Qed.
Lemma this_opp (x : Qc) : (this (- x) == - this x)%Q.
Proof. apply Qred_correct. Qed.
Lemma this_minus (x y : Qc) : (this (x - y) == this x - this y)%Q.
Proof. unfold Qcminus. rewrite this_plus, this_opp. reflexivity. Qed.

(** Linear goals over [Qc] are sent to [Q], where [lra] decides them;
    products of variables are atoms. *)
Ltac qc2q :=
  unfold Qcle, Qclt in *;
  repeat match goal with
  | H : @eq Qc _ _ |- _ => apply Qc_eq_Qeq in H
  | H : not (@eq Qc _ _) |- _ => apply Qc_neq_Qeq in H
  | |- @eq Qc _ _ => apply Qc_eq_Qeq
  | |- not (@eq Qc _ _) => apply Qc_neq_Qeq
  end;
  repeat match goal with
  | H : context [this (_ + _)] |- _ => rewrite this_plus in H
  | H : context [this (_ - _)] |- _ => rewrite this_minus in H
  | H : context [this (_ * _)] |- _ => rewrite this_mult in H
  | H : context [this (- _)] |- _ => rewrite this_opp in H
  | H : context [this (Q2Qc _)] |- _ => rewrite this_Q2Qc in H
  | |- context [this (_ + _)] => rewrite this_plus
  | |- context [this (_ - _)] => rewrite this_minus
  | |- context [this (_ * _)] => rewrite this_mult
  | |- context [this (- _)] => rewrite this_opp
  | |- context [this (Q2Qc _)] => rewrite this_Q2Qc
  end;
  cbn [this] in *.
Ltac qc_lra := qc2q; lra.

Lemma Qc_of_nat_0 : Qc_of_nat 0 = 0.
Proof. apply Z2Qc_inj_0. Qed.

Lemma Qc_of_nat_S n : Qc_of_nat (S n) = Qc_of_nat n + 1.
Proof.
  unfold Qc_of_nat. rewrite Nat2Z.inj_succ, <-Z.add_1_r, Z2Qc_inj_add.
  by rewrite Z2Qc_inj_1.
Qed.

Lemma Qc_of_nat_nonneg n : 0 ≤ Qc_of_nat n.
Proof.
  unfold Qc_of_nat. rewrite <-Z2Qc_inj_0, <-Z2Qc_inj_le. lia.
Qed.

Lemma Qc_of_nat_pos n : (0 < n)%nat → 0 < Qc_of_nat n.
Proof.
  intros. unfold Qc_of_nat. rewrite <-Z2Qc_inj_0, <-Z2Qc_inj_lt. lia.
Qed.

Lemma Qc_of_nat_ne_0 n : n ≠ O → Qc_of_nat n ≠ 0.
Proof.
  intros Hn Heq. pose proof (Qc_of_nat_pos n). rewrite Heq in H.
  apply (Qclt_not_eq 0 0); [apply H; lia|done].
Qed.

Lemma pydiv_Ok a b : b ≠ 0 → pydiv a b = Ok (a / b).
Proof. intros. unfold pydiv. by rewrite decide_False. Qed.

Lemma pydiv_0 a : pydiv a 0 = Raise ZeroDivisionError.
Proof. done. Qed.

(** ** Finite sums *)

Lemma Qcsum_replicate n v : Qcsum (replicate n v) = Qc_of_nat n * v.
Proof.
  induction n as [|n IH]; [simpl; rewrite Qc_of_nat_0; ring|].
  simpl. rewrite IH, Qc_of_nat_S. ring.
Qed.

Lemma Qcsum_values_dict_set (d : dict Qc) k v old :
  dict_lookup d k = Some old →
  Qcsum (values (dict_set d k v)) = Qcsum (values d) + (v - old).
Proof.
  induction d as [|[k' v'] d IH]; simpl; [done|].
  case_decide; unfold values in *; csimpl.
  - intros [= ->]. ring.
  - intros Hd. rewrite (IH Hd). ring.
Qed.

Lemma dict_lookup_values {V} (d : dict V) k v :
  dict_lookup d k = Some v → v ∈ values d.
Proof.
  unfold values. induction d as [|[k' v'] d IH]; csimpl; [done|].
  case_decide; [intros [= ->]; left|right; auto].
Qed.

Lemma dict_lookup_elem_of {V} (d : dict V) k v :
  dict_lookup d k = Some v → (k, v) ∈ d.
Proof.
  induction d as [|[k' v'] d IH]; simpl; [done|].
  case_decide; [intros [= ->]; subst; left|right; auto].
Qed.

Lemma valid_corpus_links (c : corpus) p L :
  valid_corpus c → dict_lookup c p = Some L →
  (p ∉ L) ∧ ∀ q, q ∈ L → q ∈ keys c.
Proof.
  intros [_ Hall] Hp%dict_lookup_elem_of.
  rewrite Forall_forall in Hall. destruct (Hall _ Hp) as [H1 H2].
  split; [done|]. intros q Hq.
  rewrite Forall_forall in H2. apply H2. by apply elem_of_elements.
Qed.

Lemma length_keys {V} (d : dict V) : length (keys d) = length d.
Proof. unfold keys. by rewrite length_fmap. Qed.

Lemma length_values {V} (d : dict V) : length (values d) = length d.
Proof. unfold values. by rewrite length_fmap. Qed.

Lemma set_len_ne_0 (L : gset string) : L ≠ ∅ → set_len L ≠ O.
Proof.
  intros HL. unfold set_len. apply size_non_empty_iff.
  by intros ?%leibniz_equiv.
Qed.

Lemma set_len_elem (L : gset string) p : p ∈ L → set_len L ≠ O.
Proof. intros Hp. apply set_len_ne_0. set_solver. Qed.

(** ** The transition model *)

(** The [distribution[nowPage] += LinkedPagePercent] loop. *)
Lemma link_loop (lpp : Qc) (xs : list string) (dist : dict Qc) :
  (∀ x, x ∈ xs → x ∈ keys dist) →
  ∃ m, for_each (λ dist nowPage,
                   v ← dict_get dist nowPage ;
                   Ok (dict_set dist nowPage (v + lpp))) xs dist = Ok m
       ∧ keys m = keys dist
       ∧ Qcsum (values m) = Qcsum (values dist) + Qc_of_nat (length xs) * lpp
       ∧ (0 ≤ lpp → Forall (λ v, 0 ≤ v) (values dist) →
          Forall (λ v, 0 ≤ v) (values m)).
Proof.
  revert dist. induction xs as [|x xs IH]; intros dist Hin.
  - exists dist. simpl. rewrite Qc_of_nat_0. repeat split; [ring|done].
  - destruct (proj1 (dict_lookup_is_Some dist x)) as [v Hv]; [apply Hin; left|].
    destruct (IH (dict_set dist x (v + lpp))) as (m & Hm & Hk & Hs & Hp).
    { intros y Hy. rewrite keys_dict_set_elem by (apply Hin; left).
      apply Hin. by right. }
    exists m. apply dict_get_Ok in Hv as Hg. simpl. rewrite Hg. simpl.
    rewrite keys_dict_set_elem in Hk by (apply Hin; left).
    split_and!; [done|done| |].
    + rewrite Hs, (Qcsum_values_dict_set _ _ _ v) by done.
      rewrite Qc_of_nat_S. ring.
    + intros Hl Hd. apply Hp; [done|].
      apply values_dict_set_Forall; [done|].
      apply Qcplus_nonneg_nonneg; [|done].
      rewrite Forall_forall in Hd. apply Hd. by eapply dict_lookup_values.
Qed.

Lemma transition_model_linked (c : corpus) (p : string) (L : gset string) (d : Qc) :
  valid_corpus c → dict_lookup c p = Some L → L ≠ ∅ →
  ∃ m, transition_model c p d = Ok m
       ∧ keys m = keys c
       ∧ Qcsum (values m) = 1
       ∧ (0 ≤ d → d ≤ 1 → Forall (λ v, 0 ≤ v) (values m)).
Proof.
  intros Hv Hp HL. destruct (valid_corpus_links c p L Hv Hp) as [_ Hsub].
  destruct Hv as [Hnd _].
  assert (HN : Qc_of_nat (length c) ≠ 0).
  { apply Qc_of_nat_ne_0. destruct c; [done|simpl; lia]. }
  assert (HS : Qc_of_nat (set_len L) ≠ 0).
  { by apply Qc_of_nat_ne_0, set_len_ne_0. }
  unfold transition_model, dict_get. rewrite Hp. simpl.
  rewrite !pydiv_Ok by done. simpl.
  rewrite fill_dict_nil by done.
  destruct (link_loop (d / Qc_of_nat (set_len L)) (set_iter L)
              (map (λ k, (k, (1 - d) / Qc_of_nat (length c))) (keys c)))
    as (m & Hm & Hk & Hs & Hpos).
  { intros x Hx. rewrite keys_const. apply Hsub. by apply elem_of_elements. }
  exists m. rewrite keys_const in Hk. split_and!; [done|done| |].
  - rewrite Hs, values_const, Qcsum_replicate, length_keys.
    unfold set_iter, set_len, size, set_size. simpl. field. done.
  - intros Hd0 Hd1. apply Hpos.
    + apply Qcmult_nonneg_nonneg; [done|].
      apply Qclt_le_weak, Qcinv_pos, Qc_of_nat_pos.
      apply set_len_ne_0 in HL. lia.
    + rewrite values_const. apply Forall_replicate.
      apply Qcmult_nonneg_nonneg; [qc_lra|].
      apply Qclt_le_weak, Qcinv_pos, Qc_of_nat_pos. destruct c; [done|simpl; lia].
Qed.

Lemma transition_model_dead_end (c : corpus) (p : string) (d : Qc) :
  dict_lookup c p = Some ∅ → transition_model c p d = Raise ZeroDivisionError.
Proof.
  intros Hp. unfold transition_model, dict_get. rewrite Hp. simpl.
  rewrite (pydiv_Ok (1 - d)).
  - unfold set_len. by rewrite size_empty, Qc_of_nat_0, pydiv_0.
  - apply Qc_of_nat_ne_0. destruct c; [done|simpl; lia].
Qed.

(** ** The random module *)

Lemma randbelow_lt g pos n : (0 < n)%nat → (randbelow g pos n < n)%nat.
Proof.
  intros Hn. unfold randbelow.
  pose proof (Z.mod_pos_bound (g pos) (Z.of_nat n)). lia.
Qed.

Lemma random_choice_Ok {A} g pos (seq : list A) :
  seq ≠ [] → ∃ x, random_choice g pos seq = Ok x ∧ x ∈ seq.
Proof.
  intros Hne. unfold random_choice.
  destruct (lookup_lt_is_Some_2 seq (randbelow g pos (length seq))) as [x Hx].
  { apply randbelow_lt. destruct seq; [done|simpl; lia]. }
  exists x. rewrite Hx. split; [by destruct seq|].
  by eapply list_elem_of_lookup_2.
Qed.

Lemma length_accumulate_from acc ws :
  length (accumulate_from acc ws) = length ws.
Proof. revert acc. induction ws; intros; simpl; [done|]. by f_equal. Qed.

Lemma last_accumulate_from acc w ws :
  last (accumulate_from acc (w :: ws)) = Some (acc + Qcsum (w :: ws)).
Proof.
  revert acc w. induction ws as [|w' ws IH]; intros acc w.
  - simpl. f_equal. ring.
  - change (accumulate_from acc (w :: w' :: ws))
      with ((acc + w) :: accumulate_from (acc + w) (w' :: ws)).
    rewrite last_cons, IH. simpl. f_equal. ring.
Qed.

Lemma bisect_loop_bounds fuel a x lo hi :
  (lo ≤ hi)%nat →
  (lo ≤ bisect_loop fuel a x lo hi)%nat ∧ (bisect_loop fuel a x lo hi ≤ hi)%nat.
Proof.
  revert lo hi. induction fuel as [|fuel IH]; intros lo hi Hle;
    cbn [bisect_loop]; [lia|].
  case_decide; [|lia].
  assert (lo ≤ (lo + hi) / 2 ∧ (lo + hi) / 2 < hi)%nat as [Hm1 Hm2].
  { split; [apply Nat.div_le_lower_bound|apply Nat.Div0.div_lt_upper_bound]; lia. }
  set (mid := ((lo + hi) / 2)%nat) in *. clearbody mid.
  destruct (a !! mid); [|lia].
  case_decide.
  - destruct (IH lo mid ltac:(lia)); lia.
  - destruct (IH (mid + 1)%nat hi ltac:(lia)); lia.
Qed.

Lemma random_choices_elem {A} g pos (population : list A) weights x :
  random_choices g pos population weights = Ok x → x ∈ population.
Proof.
  unfold random_choices. case_decide; [|done].
  destruct (last _); [|done]. case_decide; [done|].
  destruct (population !! _) eqn:Hx; [|done].
  intros [= <-]. by eapply list_elem_of_lookup_2.
Qed.

Lemma random_choices_Ok {A} g pos (population : list A) weights :
  length weights = length population → 0 < Qcsum weights →
  ∃ x, random_choices g pos population weights = Ok x ∧ x ∈ population.
Proof.
  intros Hlen Hpos.
  assert (∃ x, random_choices g pos population weights = Ok x) as [x Hx];
    [|exists x; split; [done|by eapply random_choices_elem]].
  unfold random_choices, accumulate.
  rewrite decide_True by (by rewrite length_accumulate_from).
  destruct weights as [|w ws]; [by apply Qclt_not_eq in Hpos|].
  rewrite last_accumulate_from, Qcplus_0_l.
  rewrite decide_False by (by apply Qclt_not_le).
  set (i := bisect_right _ _ _ _).
  destruct (lookup_lt_is_Some_2 population i) as [y Hy]; [|rewrite Hy; eauto].
  destruct (bisect_loop_bounds (length population - 1 - 0)
              (accumulate_from 0 (w :: ws)) (random g pos * Qcsum (w :: ws))
              0 (length population - 1)) as [_ Hi]; [lia|].
  fold (bisect_right (accumulate_from 0 (w :: ws))
          (random g pos * Qcsum (w :: ws)) 0 (length population - 1)) in Hi.
  fold i in Hi. simpl in Hlen. lia.
Qed.

(** ** The sampling estimator *)

Lemma Zsum_values_dict_set (d : dict Z) k v old :
  dict_lookup d k = Some old →
  Zsum (values (dict_set d k v)) = (Zsum (values d) + (v - old))%Z.
Proof.
  induction d as [|[k' v'] d IH]; simpl; [done|].
  case_decide; unfold values in *; csimpl.
  - intros [= ->]. lia.
  - intros Hd. rewrite (IH Hd). lia.
Qed.

Lemma dict_incr_Ok (cd : dict Z) k :
  k ∈ keys cd →
  ∃ cd', dict_incr cd k 1 = Ok cd'
         ∧ keys cd' = keys cd
         ∧ Zsum (values cd') = (Zsum (values cd) + 1)%Z
         ∧ (Forall (λ v, 0 ≤ v)%Z (values cd) → Forall (λ v, 0 ≤ v)%Z (values cd'))
         ∧ (∀ k', dict_lookup cd' k' =
                  if decide (k' = k) then (λ v, v + 1)%Z <$> dict_lookup cd k
                  else dict_lookup cd k').
Proof.
  intros Hk. destruct (proj1 (dict_lookup_is_Some cd k) Hk) as [v Hv].
  exists (dict_set cd k (v + 1)%Z). unfold dict_incr.
  rewrite (proj2 (dict_get_Ok _ _ _) Hv). simpl. split_and!; [done| | | |].
  - by apply keys_dict_set_elem.
  - rewrite (Zsum_values_dict_set _ _ _ v) by done. lia.
  - intros Hpos. apply values_dict_set_Forall; [done|].
    rewrite Forall_forall in Hpos. apply dict_lookup_values, Hpos in Hv. lia.
  - intros k'. rewrite dict_lookup_set. case_decide; [by rewrite Hv|done].
Qed.

Lemma dict_incr_inv (cd cd' : dict Z) k :
  dict_incr cd k 1 = Ok cd' → k ∈ keys cd.
Proof.
  unfold dict_incr, dict_get. destruct (dict_lookup cd k) eqn:Hk; [|done].
  intros _. by eapply dict_lookup_Some_keys.
Qed.

Lemma transition_model_Ok_inv (c : corpus) p d m :
  valid_corpus c → transition_model c p d = Ok m →
  keys m = keys c ∧ Qcsum (values m) = 1.
Proof.
  intros Hv Hm. destruct (dict_lookup c p) as [L|] eqn:Hp.
  - destruct (decide (L = ∅)) as [->|HL].
    + by rewrite transition_model_dead_end in Hm.
    + destruct (transition_model_linked c p L d Hv Hp HL) as (m' & Hm' & ? & ? & _).
      rewrite Hm in Hm'. by injection Hm' as <-.
  - unfold transition_model, dict_get in Hm. by rewrite Hp in Hm.
Qed.

Lemma sample_loop_inv g (c : corpus) d steps pos chosen (cd cd' : dict Z) :
  valid_corpus c → keys cd = keys c →
  sample_loop g c d steps pos chosen cd = Ok cd' → walk_post c cd steps cd'.
Proof.
  intros Hv. revert pos chosen cd.
  induction steps as [|steps IH]; intros pos chosen cd Hk; simpl.
  - intros [= <-]. split_and!; [done|lia|done].
  - intros (m & Hm & (chosen' & Hc & (cd1 & H1 & Hloop)%bind_Ok)%bind_Ok)%bind_Ok.
    apply dict_incr_inv in H1 as Hin.
    destruct (dict_incr_Ok cd chosen' Hin) as (cd1' & H1' & Hk1 & Hs1 & Hp1 & _).
    rewrite H1 in H1'. injection H1' as <-.
    apply IH in Hloop as (? & Hs & Hp); [|congruence].
    split_and!; [done|lia|auto].
Qed.

Lemma sample_loop_Ok g (c : corpus) d steps pos chosen (cd : dict Z) :
  valid_corpus c → no_dead_end c → keys cd = keys c → chosen ∈ keys c →
  ∃ cd', sample_loop g c d steps pos chosen cd = Ok cd'.
Proof.
  intros Hv Hnd. revert pos chosen cd.
  induction steps as [|steps IH]; intros pos chosen cd Hk Hc; simpl; [eauto|].
  destruct (proj1 (dict_lookup_is_Some c chosen) Hc) as [L HL].
  assert (L ≠ ∅) as HLne.
  { unfold no_dead_end in Hnd. rewrite Forall_forall in Hnd.
    apply (Hnd (chosen, L)). by apply dict_lookup_elem_of. }
  destruct (transition_model_linked c chosen L d Hv HL HLne)
    as (m & -> & Hkm & Hsum & _). simpl.
  destruct (random_choices_Ok g pos (keys m) (values m)) as (chosen' & -> & Hc').
  { by rewrite length_keys, length_values. }
  { by rewrite Hsum. }
  simpl. destruct (dict_incr_Ok cd chosen') as (cd1 & -> & Hk1 & _); [congruence|].
  simpl. apply IH; congruence.
Qed.

Lemma random_choice_elem {A} g pos (seq : list A) x :
  random_choice g pos seq = Ok x → x ∈ seq.
Proof.
  unfold random_choice. destruct seq as [|a seq]; [done|].
  destruct (_ !! _) eqn:Hx; [|done]. intros [= <-].
  by eapply list_elem_of_lookup_2.
Qed.

Lemma Zsum_replicate_0 n : Zsum (replicate n 0%Z) = 0%Z.
Proof. induction n; simpl; [done|]. by rewrite IHn. Qed.

Lemma sample_counts_inv g (c : corpus) d n (cd : dict Z) :
  valid_corpus c → sample_counts g c d n = Ok cd →
  keys cd = keys c
  ∧ Zsum (values cd) = (1 + Z.of_nat (Z.to_nat (n - 1)))%Z
  ∧ Forall (λ v, 0 ≤ v)%Z (values cd).
Proof.
  intros Hv. unfold sample_counts. rewrite fill_dict_nil by apply Hv.
  intros (chosen & Hc%random_choice_elem & (cd1 & H1 & Hloop)%bind_Ok)%bind_Ok.
  destruct (dict_incr_Ok (map (λ k, (k, 0%Z)) (keys c)) chosen)
    as (cd1' & H1' & Hk1 & Hs1 & Hp1 & _); [by rewrite keys_const|].
  rewrite H1 in H1'. injection H1' as <-.
  rewrite keys_const in Hk1.
  rewrite values_const, Zsum_replicate_0 in Hs1. rewrite values_const in Hp1.
  apply sample_loop_inv in Hloop as (? & Hs & Hp); [|done..].
  split_and!; [done|lia|].
  apply Hp, Hp1, Forall_replicate. lia.
Qed.

Lemma sample_counts_Ok g (c : corpus) d n :
  valid_corpus c → c ≠ [] → no_dead_end c →
  ∃ cd, sample_counts g c d n = Ok cd.
Proof.
  intros Hv Hne Hnd. unfold sample_counts. rewrite fill_dict_nil by apply Hv.
  destruct (random_choice_Ok g 0 (keys c)) as (chosen & -> & Hc).
  { by destruct c. }
  simpl. destruct (dict_incr_Ok (map (λ k, (k, 0%Z)) (keys c)) chosen)
    as (cd1 & -> & Hk1 & _); [by rewrite keys_const|].
  simpl. rewrite keys_const in Hk1. by apply sample_loop_Ok.
Qed.

(** With a single sample the walk has no step: only the start page counts. *)
Lemma sample_counts_1 g (c : corpus) d :
  valid_corpus c → c ≠ [] →
  ∃ p cd, random_choice g 0 (keys c) = Ok p ∧ p ∈ keys c
          ∧ sample_counts g c d 1 = Ok cd ∧ keys cd = keys c
          ∧ ∀ q, q ∈ keys c →
                 dict_lookup cd q = Some (if decide (q = p) then 1 else 0)%Z.
Proof.
  intros Hv Hne. unfold sample_counts. rewrite fill_dict_nil by apply Hv.
  destruct (random_choice_Ok g 0 (keys c)) as (p & Hp & Hc).
  { by destruct c. }
  destruct (dict_incr_Ok (map (λ k, (k, 0%Z)) (keys c)) p)
    as (cd & Hcd & Hk & _ & _ & Hl); [by rewrite keys_const|].
  exists p, cd. rewrite Hp. simpl. rewrite Hcd. simpl.
  rewrite keys_const in Hk. split_and!; [done..|].
  intros q Hq. rewrite Hl. case_decide; subst; by rewrite dict_lookup_const.
Qed.

(** The [probDict[page] = count / n] loop. *)
Lemma normalise_loop (n : Z) (cd : dict Z) (acc : dict Qc) :
  n ≠ 0%Z → NoDup (keys cd) → (∀ k, k ∈ keys cd → k ∉ keys acc) →
  for_each (λ probDict '(page, count),
              p ← pydiv (Qc_of_Z count) (Qc_of_Z n) ;
              Ok (dict_set probDict page p)) cd acc
  = Ok (acc ++ map (λ e, (e.1, Qc_of_Z e.2 / Qc_of_Z n)) cd).
Proof.
  intros Hn. revert acc.
  induction cd as [|[k v] cd IH]; intros acc Hnd Hfresh; simpl.
  - by rewrite app_nil_r.
  - unfold keys in Hnd; csimpl in Hnd. apply NoDup_cons in Hnd as [Hk Hnd].
    rewrite pydiv_Ok by (rewrite <-Z2Qc_inj_0; by intros ?%Z2Qc_inj). simpl.
    rewrite keys_dict_set_fresh by (apply Hfresh; left).
    rewrite IH; [by rewrite <-app_assoc|done|].
    intros k' Hk'. unfold keys. rewrite fmap_app, elem_of_app. simpl.
    intros [?|?%list_elem_of_singleton]; [|by subst].
    eapply Hfresh; [by right|done].
Qed.

Lemma keys_fmap_values {V W} (f : V → W) (d : dict V) :
  keys (map (λ e, (e.1, f e.2)) d) = keys d.
Proof. unfold keys. induction d as [|[??] d IH]; csimpl; [done|]. by f_equal. Qed.

Lemma values_fmap_values {V W} (f : V → W) (d : dict V) :
  values (map (λ e, (e.1, f e.2)) d) = map f (values d).
Proof. unfold values. induction d as [|[??] d IH]; csimpl; [done|]. by f_equal. Qed.

Lemma dict_lookup_fmap_values {V W} (f : V → W) (d : dict V) k :
  dict_lookup (map (λ e, (e.1, f e.2)) d) k = f <$> dict_lookup d k.
Proof. induction d as [|[??] d IH]; csimpl; [done|]. by case_decide. Qed.

Lemma Qcsum_scaled (n : Z) (vs : list Z) :
  Qcsum (map (λ v, Qc_of_Z v / Qc_of_Z n) vs) = Qc_of_Z (Zsum vs) / Qc_of_Z n.
Proof.
  induction vs as [|v vs IH]; simpl.
  - rewrite Z2Qc_inj_0. unfold Qcdiv. ring.
  - rewrite IH, Z2Qc_inj_add. unfold Qcdiv. ring.
Qed.

Lemma sample_pagerank_normalise g (c : corpus) d n (cd : dict Z) :
  valid_corpus c → n ≠ 0%Z → sample_counts g c d n = Ok cd →
  sample_pagerank g c d n
  = Ok (map (λ e, (e.1, Qc_of_Z e.2 / Qc_of_Z n)) cd).
Proof.
  intros Hv Hn Hcd. unfold sample_pagerank. rewrite Hcd. simpl.
  apply sample_counts_inv in Hcd as (Hk & _); [|done].
  rewrite normalise_loop; [done..| |].
  - rewrite Hk. apply Hv.
  - intros ? _ ?%elem_of_nil. done.
Qed.

Lemma sample_pagerank_inv g (c : corpus) d n (m : dict Qc) :
  valid_corpus c → (1 ≤ n)%Z → sample_pagerank g c d n = Ok m →
  keys m = keys c ∧ Forall (λ v, 0 ≤ v) (values m) ∧ Qcsum (values m) = 1.
Proof.
  intros Hv Hn Hm.
  destruct (sample_counts g c d n) as [cd|e] eqn:Hcd;
    [|by unfold sample_pagerank in Hm; rewrite Hcd in Hm].
  rewrite (sample_pagerank_normalise g c d n cd) in Hm by (done || lia).
  injection Hm as <-.
  apply sample_counts_inv in Hcd as (Hk & Hs & Hp); [|done].
  assert (0 < Qc_of_Z n) as Hn0 by (rewrite <-Z2Qc_inj_0, <-Z2Qc_inj_lt; lia).
  rewrite (keys_fmap_values (λ v, Qc_of_Z v / Qc_of_Z n)),
    (values_fmap_values (λ v, Qc_of_Z v / Qc_of_Z n)).
  split_and!; [done| |].
  - apply Forall_fmap. eapply Forall_impl; [done|]. intros v Hv0. simpl.
    apply Qcmult_nonneg_nonneg; [|by apply Qclt_le_weak, Qcinv_pos].
    rewrite <-Z2Qc_inj_0, <-Z2Qc_inj_le. done.
  - rewrite Qcsum_scaled, Hs. replace (1 + Z.of_nat (Z.to_nat (n - 1)))%Z with n by lia.
    field. by apply Qclt_not_eq in Hn0.
Qed.

(** ** The iterative estimator: one pass *)

Lemma wsum_ext (c : corpus) w (g1 g2 : string → Qc) :
  (∀ k, k ∈ keys c → g1 k = g2 k) → wsum c w g1 = wsum c w g2.
Proof.
  unfold wsum, keys. induction c as [|[q L] c IH]; intros Heq; csimpl; [done|].
  rewrite IH by (intros; apply Heq; by right).
  rewrite (Heq q) by left. done.
Qed.

Lemma inflow_ext (c : corpus) d (ρ1 ρ2 : string → Qc) p :
  (∀ k, k ∈ keys c → ρ1 k = ρ2 k) → inflow c d ρ1 p = inflow c d ρ2 p.
Proof. intros. unfold inflow. f_equal. by apply wsum_ext. Qed.

Lemma sweep_ext (c : corpus) d rows (ρ1 ρ2 : string → Qc) :
  (∀ k, ρ1 k = ρ2 k) → ∀ k, sweep c d rows ρ1 k = sweep c d rows ρ2 k.
Proof.
  revert ρ1 ρ2. induction rows as [|p rows IH]; intros ρ1 ρ2 Heq k; simpl; [done|].
  apply IH. intros k'. unfold fupd. case_decide; [|done].
  f_equal. apply inflow_ext. auto.
Qed.

Lemma sweep_notin (c : corpus) d rows (ρ : string → Qc) k :
  k ∉ rows → sweep c d rows ρ k = ρ k.
Proof.
  revert ρ. induction rows as [|p rows IH]; intros ρ Hk; simpl; [done|].
  apply not_elem_of_cons in Hk as [? ?]. rewrite IH by done.
  unfold fupd. by rewrite decide_False.
Qed.

Lemma rank_of_lookup (pd : dict Qc) k :
  k ∈ keys pd → dict_get pd k = Ok (rank_of pd k).
Proof.
  intros [v Hv]%dict_lookup_is_Some. unfold dict_get, rank_of. by rewrite Hv.
Qed.

Lemma share_elem p (L : gset string) :
  p ∈ L → share p L = 1 / Qc_of_nat (size L).
Proof. intros. unfold share. by rewrite decide_True. Qed.

Lemma share_not_elem p (L : gset string) : p ∉ L → share p L = 0.
Proof. intros. unfold share. by rewrite decide_False. Qed.

(** The inner loop adds the inflow of [page] to its starting value. *)
Lemma rank_sum_Ok (c : corpus) d page (pd : dict Qc) x :
  (∀ k, k ∈ keys c → k ∈ keys pd) →
  rank_sum c d page pd x = Ok (x + inflow c d (rank_of pd) page).
Proof.
  unfold rank_sum, inflow, wsum, keys at 1. revert x.
  induction c as [|[q L] c IH]; intros x Hk; csimpl.
  - f_equal. ring.
  - destruct (decide (page ∈ L)) as [Hin|Hnin].
    + rewrite share_elem by done. rewrite rank_of_lookup by (apply Hk; left). simpl.
      rewrite pydiv_Ok by (eapply Qc_of_nat_ne_0, set_len_elem; done). simpl.
      rewrite IH by (intros; apply Hk; by right). f_equal.
      unfold set_len. field.
      eapply Qc_of_nat_ne_0, set_len_elem; done.
    + rewrite share_not_elem by done. simpl.
      rewrite IH by (intros; apply Hk; by right). f_equal. ring.
Qed.

Lemma rank_step_Ok (c : corpus) d (pd : dict Qc) (flag : bool) page :
  keys pd = keys c → page ∈ keys c →
  rank_step c d (pd, flag) page =
  let v := base_rank c d + inflow c d (rank_of pd) page in
  Ok (dict_set pd page v,
      if decide (minChange < Qcabs.Qcabs (v - rank_of pd page)) then true else flag).
Proof.
  intros Hk Hp. unfold rank_step.
  rewrite pydiv_Ok, bind_Ok_l.
  - rewrite rank_sum_Ok, bind_Ok_l by (intros; by rewrite Hk).
    rewrite rank_of_lookup, bind_Ok_l by (by rewrite Hk). done.
  - apply Qc_of_nat_ne_0. destruct c; [by apply elem_of_nil in Hp|done].
Qed.
(** What the outer loop does to the ranks and to [flag]. *)
Lemma rank_rows_Ok (c : corpus) d rows (pd : dict Qc) (flag : bool) :
  NoDup rows → (∀ p, p ∈ rows → p ∈ keys c) → keys pd = keys c →
  ∃ pd' flag',
    for_each (rank_step c d) rows (pd, flag) = Ok (pd', flag')
    ∧ keys pd' = keys c
    ∧ (∀ k, rank_of pd' k = sweep c d rows (rank_of pd) k)
    ∧ (flag' = true ↔
       flag = true ∨
       ∃ p, p ∈ rows ∧
            minChange < Qcabs.Qcabs (sweep c d rows (rank_of pd) p - rank_of pd p)).
Proof.
  revert pd flag. induction rows as [|p rows IH]; intros pd flag Hnd Hsub Hk.
  - exists pd, flag. simpl. split_and!; [done..|].
    split; [by left|]. intros [?|(p & ?%elem_of_nil & _)]; done.
  - apply NoDup_cons in Hnd as [Hp Hnd].
    cbn [for_each]. rewrite rank_step_Ok by (done || apply Hsub; left). 
    cbn zeta. set (v := base_rank c d + inflow c d (rank_of pd) p).
    cbn [mbind result_bind].
    destruct (IH (dict_set pd p v)
                (if decide (minChange < Qcabs.Qcabs (v - rank_of pd p))
                 then true else flag))
      as (pd' & flag' & Hrun & Hk' & Hrk & Hfl).
    { done. }
    { intros; apply Hsub; by right. }
    { rewrite keys_dict_set_elem; [done|]. rewrite Hk. apply Hsub; left. }
    exists pd', flag'. 
    assert (Hsw : ∀ k, sweep c d rows (rank_of (dict_set pd p v)) k
                     = sweep c d (p :: rows) (rank_of pd) k).
    { intros k. simpl. apply sweep_ext. intros k'. apply rank_of_set. }
    split_and!; [done|done| |].
    + intros k. by rewrite Hrk, Hsw.
    + rewrite Hfl. 
      assert (Hvp : sweep c d (p :: rows) (rank_of pd) p = v).
      { rewrite <-Hsw, sweep_notin by done. rewrite rank_of_set.
        unfold fupd. by rewrite decide_True. }
      split.
      * intros [Hf|(q & Hq & Hch)].
        -- case_decide; [|by left]. right. exists p. rewrite Hvp. split; [left|done].
        -- right. exists q. split; [by right|]. rewrite <-Hsw.
           rewrite rank_of_set in Hch. unfold fupd in Hch.
           rewrite decide_False in Hch; [done|]. by intros ->.
      * intros [Hf|(q & Hq & Hch)].
        -- left. by case_decide.
        -- apply elem_of_cons in Hq as [->|Hq].
           ++ left. rewrite Hvp in Hch. by rewrite decide_True.
           ++ right. exists q. split; [done|]. rewrite Hsw.
              rewrite rank_of_set. unfold fupd.
              rewrite decide_False; [done|]. by intros ->.
Qed.

(** One pass is an in-place sweep over the keys of the corpus; [flag] tells
    whether some rank moved by more than [minChange]. *)
Lemma rank_pass_Ok (c : corpus) d (pd : dict Qc) :
  NoDup (keys c) → keys pd = keys c →
  ∃ pd' flag,
    rank_pass c d pd = Ok (pd', flag)
    ∧ keys pd' = keys c
    ∧ (∀ k, rank_of pd' k = sweep c d (keys c) (rank_of pd) k)
    ∧ (flag = true ↔
       ∃ p, p ∈ keys c ∧
            minChange < Qcabs.Qcabs (rank_of pd' p - rank_of pd p)).
Proof.
  intros Hnd Hk.
  destruct (rank_rows_Ok c d (keys c) pd false Hnd) as (pd' & flag & H1 & H2 & H3 & H4);
    [done..|].
  exists pd', flag. split_and!; [done..|].
  rewrite H4. split.
  - intros [?|(p & ? & ?)]; [done|]. exists p. by rewrite H3.
  - intros (p & ? & ?). right. exists p. by rewrite <-H3.
Qed.

(** ** Weighted sums over the corpus *)

Lemma wsum_nil w g : wsum [] w g = 0.
Proof. done. Qed.

Lemma wsum_cons q L (c : corpus) w g :
  wsum ((q, L) :: c) w g = w L * g q + wsum c w g.
Proof. done. Qed.

Lemma wsum_ext_w (c : corpus) (w1 w2 : gset string → Qc) g :
  (∀ e, e ∈ c → w1 e.2 = w2 e.2) → wsum c w1 g = wsum c w2 g.
Proof.
  induction c as [|[q L] c IH]; intros Heq; [done|].
  rewrite !wsum_cons, IH by (intros; apply Heq; by right).
  assert (w1 L = w2 L) as -> by (apply (Heq (q, L)); left). done.
Qed.

Lemma wsum_plus_w (c : corpus) (w1 w2 : gset string → Qc) g :
  wsum c (λ L, w1 L + w2 L) g = wsum c w1 g + wsum c w2 g.
Proof.
  induction c as [|[q L] c IH]; [rewrite !wsum_nil; ring|].
  rewrite !wsum_cons, IH. ring.
Qed.

Lemma wsum_minus (c : corpus) w (g1 g2 : string → Qc) :
  wsum c w (λ k, g1 k - g2 k) = wsum c w g1 - wsum c w g2.
Proof.
  induction c as [|[q L] c IH]; [rewrite !wsum_nil; ring|].
  rewrite !wsum_cons, IH. ring.
Qed.

Lemma wsum_nonneg (c : corpus) w g :
  (∀ L, 0 ≤ w L) → (∀ k, 0 ≤ g k) → 0 ≤ wsum c w g.
Proof.
  intros Hw Hg. induction c as [|[q L] c IH]; [done|].
  rewrite wsum_cons. apply Qcplus_nonneg_nonneg; [|done].
  by apply Qcmult_nonneg_nonneg.
Qed.

Lemma wsum_mono_w (c : corpus) (w1 w2 : gset string → Qc) g :
  (∀ e, e ∈ c → w1 e.2 ≤ w2 e.2) → (∀ k, 0 ≤ g k) →
  wsum c w1 g ≤ wsum c w2 g.
Proof.
  intros Hw Hg. induction c as [|[q L] c IH]; [done|].
  rewrite !wsum_cons. apply Qcplus_le_compat.
  - apply Qcmult_le_mono_nonneg_r; [done|]. apply (Hw (q, L)). left.
  - apply IH. intros; apply Hw; by right.
Qed.

Lemma wsum_mono (c : corpus) w (g1 g2 : string → Qc) :
  (∀ L, 0 ≤ w L) → (∀ k, k ∈ keys c → g1 k ≤ g2 k) →
  wsum c w g1 ≤ wsum c w g2.
Proof.
  intros Hw. unfold keys. induction c as [|[q L] c IH]; intros Hg; [done|].
  rewrite !wsum_cons. apply Qcplus_le_compat.
  - apply Qcmult_le_mono_nonneg_l; [done|]. apply Hg. left.
  - apply IH. intros; apply Hg; by right.
Qed.

Lemma wsum_abs (c : corpus) w g :
  (∀ L, 0 ≤ w L) →
  Qcabs.Qcabs (wsum c w g) ≤ wsum c w (λ k, Qcabs.Qcabs (g k)).
Proof.
  intros Hw. induction c as [|[q L] c IH]; [done|].
  rewrite !wsum_cons.
  eapply Qcle_trans; [apply Qcabs.Qcabs_triangle|].
  apply Qcplus_le_compat; [|done].
  rewrite Qcabs.Qcabs_Qcmult, (Qcabs.Qcabs_pos (w L)) by done.
  apply Qcle_refl.
Qed.

(** Changing the vector at a single key changes a single summand. *)
Lemma wsum_update (c : corpus) w (g1 g2 : string → Qc) p Lp :
  NoDup (keys c) → (p, Lp) ∈ c → (∀ k, k ≠ p → g1 k = g2 k) →
  wsum c w g1 = wsum c w g2 + w Lp * (g1 p - g2 p).
Proof.
  intros Hnd Hin Heq. unfold keys in Hnd.
  induction c as [|[q L] c IH]; [by apply elem_of_nil in Hin|].
  csimpl in Hnd. apply NoDup_cons in Hnd as [Hq Hnd].
  rewrite !wsum_cons. apply elem_of_cons in Hin as [[= <- <-]|Hin].
  - rewrite (wsum_ext c w g1 g2); [ring|].
    intros k Hk. apply Heq. by intros ->.
  - rewrite IH by done. rewrite (Heq q); [ring|].
    intros ->. apply Hq. apply list_elem_of_fmap. by exists (p, Lp).
Qed.

Lemma wsum_const_1 (c : corpus) g :
  wsum c (λ _, 1) g = Qcsum (map g (keys c)).
Proof.
  unfold wsum, keys. induction c as [|[q L] c IH]; csimpl; [done|].
  rewrite IH. ring.
Qed.

Lemma wsum_elem_le (c : corpus) g k :
  (∀ k, 0 ≤ g k) → k ∈ keys c → g k ≤ wsum c (λ _, 1) g.
Proof.
  intros Hg. unfold keys. induction c as [|[q L] c IH]; csimpl.
  - by intros ?%elem_of_nil.
  - rewrite wsum_cons. intros [->|Hk]%elem_of_cons.
    + pose proof (wsum_nonneg c (λ _, 1) g). 
      assert (0 ≤ wsum c (λ _, 1) g) by (apply H; done). qc_lra.
    + pose proof (Hg q). apply IH in Hk. qc_lra.
Qed.

(** ** How much of a page's rank a set of rows receives *)

Lemma share_nonneg p (L : gset string) : 0 ≤ share p L.
Proof.
  unfold share. case_decide; [|done].
  apply Qcmult_nonneg_nonneg; [done|].
  apply Qclt_le_weak, Qcinv_pos, Qc_of_nat_pos.
  assert (set_len L ≠ O) by (by eapply set_len_elem). unfold set_len in *. lia.
Qed.

Lemma colw_cons p rows (L : gset string) :
  colw (p :: rows) L = share p L + colw rows L.
Proof. done. Qed.

Lemma colw_nonneg rows (L : gset string) : 0 ≤ colw rows L.
Proof.
  induction rows as [|p rows IH]; [done|].
  rewrite colw_cons. apply Qcplus_nonneg_nonneg; [apply share_nonneg|done].
Qed.

Lemma colw_count rows (L : gset string) :
  colw rows L
  = Qc_of_nat (length (filter (λ p, p ∈ L) rows)) * (1 / Qc_of_nat (size L)).
Proof.
  induction rows as [|p rows IH].
  { rewrite filter_nil. cbn [length]. rewrite Qc_of_nat_0. unfold colw; simpl; ring. }
  rewrite colw_cons, IH, filter_cons. unfold share.
  case_decide; [|ring]. rewrite length_cons, Qc_of_nat_S. ring.
Qed.

Lemma Qc_of_nat_le n m : (n ≤ m)%nat → Qc_of_nat n ≤ Qc_of_nat m.
Proof. intros. unfold Qc_of_nat. rewrite <-Z2Qc_inj_le. lia. Qed.

Lemma colw_le_1 rows (L : gset string) : NoDup rows → colw rows L ≤ 1.
Proof.
  intros Hnd. rewrite colw_count.
  assert (length (filter (λ p, p ∈ L) rows) ≤ size L)%nat as Hle.
  { unfold size, set_size. simpl. apply submseteq_length, NoDup_submseteq.
    - by apply NoDup_filter.
    - intros x [? _]%list_elem_of_filter. by apply elem_of_elements. }
  destruct (decide (size L = O)) as [H0|H0].
  - replace (length (filter (λ p, p ∈ L) rows)) with O by lia.
    by rewrite Qc_of_nat_0, Qcmult_0_l.
  - apply Qc_of_nat_le in Hle.
    assert (0 < Qc_of_nat (size L)) as Hpos by (apply Qc_of_nat_pos; lia).
    apply (Qcmult_le_mono_pos_r _ _ (Qc_of_nat (size L))); [done|].
    replace (Qc_of_nat (length (filter (λ p, p ∈ L) rows)) * (1 / Qc_of_nat (size L))
             * Qc_of_nat (size L))
      with (Qc_of_nat (length (filter (λ p, p ∈ L) rows)))
      by (field; by apply Qc_of_nat_ne_0).
    by rewrite Qcmult_1_l.
Qed.

Lemma colw_eq_1 rows (L : gset string) :
  NoDup rows → L ≠ ∅ → (∀ q, q ∈ L → q ∈ rows) → colw rows L = 1.
Proof.
  intros Hnd HL Hsub. rewrite colw_count.
  assert (length (filter (λ p, p ∈ L) rows) = size L) as ->.
  { unfold size, set_size. simpl. apply Permutation_length, NoDup_Permutation.
    - by apply NoDup_filter.
    - apply NoDup_elements.
    - intros x. rewrite list_elem_of_filter, elem_of_elements.
      split; [by intros [? _]|auto]. }
  field. by apply Qc_of_nat_ne_0, set_len_ne_0.
Qed.

(** ** One pass is a contraction *)

Lemma gap_nonneg ρ1 ρ2 k : 0 ≤ gap ρ1 ρ2 k.
Proof. apply Qcabs.Qcabs_nonneg. Qed.

Lemma total_cons q L (c : corpus) g : total ((q, L) :: c) g = g q + total c g.
Proof. unfold total. rewrite wsum_cons. ring. Qed.

Lemma later_flow_ext (cs : corpus) (g1 g2 : string → Qc) :
  (∀ k, k ∈ keys cs → g1 k = g2 k) → later_flow cs g1 = later_flow cs g2.
Proof.
  unfold keys. induction cs as [|[q L] cs IH]; intros Heq; csimpl; [done|].
  rewrite IH by (intros; apply Heq; by right).
  by rewrite (Heq q) by left.
Qed.

Lemma later_flow_nonneg (cs : corpus) g :
  (∀ k, 0 ≤ g k) → 0 ≤ later_flow cs g.
Proof.
  intros Hg. induction cs as [|[q L] cs IH]; csimpl; [done|].
  apply Qcplus_nonneg_nonneg; [|done].
  apply Qcmult_nonneg_nonneg; [done|apply colw_nonneg].
Qed.

Lemma later_flow_le_total (cs : corpus) g :
  NoDup (keys cs) → (∀ k, 0 ≤ g k) → later_flow cs g ≤ total cs g.
Proof.
  intros Hnd Hg. unfold keys in Hnd.
  induction cs as [|[q L] cs IH]; csimpl; [done|].
  csimpl in Hnd. apply NoDup_cons in Hnd as [_ Hnd].
  rewrite total_cons. apply Qcplus_le_compat; [|auto].
  rewrite <-(Qcmult_1_r (g q)) at 2.
  apply Qcmult_le_mono_nonneg_l; [done|]. by apply colw_le_1.
Qed.

(** The new rank of a page moves by at most [d] times what flows into it. *)
Lemma fupd_gap (c : corpus) d (x y : string → Qc) p :
  0 ≤ d →
  gap (fupd x p (base_rank c d + inflow c d x p))
      (fupd y p (base_rank c d + inflow c d y p)) p
  ≤ d * wsum c (share p) (gap x y).
Proof.
  intros Hd. unfold gap at 1, fupd. rewrite !decide_True by done.
  unfold inflow.
  replace (base_rank c d + d * wsum c (share p) x
           - (base_rank c d + d * wsum c (share p) y))
    with (d * wsum c (share p) (λ k, x k - y k))
    by (rewrite wsum_minus; ring).
  rewrite Qcabs.Qcabs_Qcmult, (Qcabs.Qcabs_pos d) by done.
  apply Qcmult_le_mono_nonneg_l; [done|].
  apply wsum_abs, share_nonneg.
Qed.

Lemma fupd_gap_ne (x y : string → Qc) p vx vy k :
  k ≠ p → gap (fupd x p vx) (fupd y p vy) k = gap x y k.
Proof. intros. unfold gap, fupd. by rewrite !decide_False. Qed.

Lemma sweep_contract_inv (c cs : corpus) d (x y : string → Qc) :
  NoDup (keys c) → 0 ≤ d → NoDup (keys cs) → (∀ e, e ∈ cs → e ∈ c) →
  total cs (gap (sweep c d (keys cs) x) (sweep c d (keys cs) y))
  - d * later_flow cs (gap (sweep c d (keys cs) x) (sweep c d (keys cs) y))
  ≤ d * wsum c (colw (keys cs)) (gap x y) - d * later_flow cs (gap x y).
Proof.
  intros Hndc Hd. revert x y.
  induction cs as [|[p Lp] cs IH]; intros x y Hnd Hsub.
  - unfold total, colw. simpl. rewrite !wsum_nil.
    replace (wsum c (λ _, 0) (gap x y)) with (Q2Qc 0); [qc_lra|].
    clear. induction c as [|[??] c IH]; [done|]. rewrite wsum_cons, <-IH. ring.
  - change (keys ((p, Lp) :: cs)) with (p :: keys cs) in *.
    apply NoDup_cons in Hnd as [Hp Hnd].
    cbn [sweep].
    set (x1 := fupd x p (base_rank c d + inflow c d x p)).
    set (y1 := fupd y p (base_rank c d + inflow c d y p)).
    specialize (IH x1 y1 Hnd (λ e He, Hsub e (list_elem_of_further _ _ _ He))).
    set (x' := sweep c d (keys cs) x1) in *.
    set (y' := sweep c d (keys cs) y1) in *.
    assert (Hfp : gap x' y' p = gap x1 y1 p).
    { unfold gap, x', y'. by rewrite !sweep_notin. }
    pose proof (fupd_gap c d x y p Hd) as Hb. fold x1 y1 in Hb.
    assert (Hlf : later_flow cs (gap x1 y1) = later_flow cs (gap x y)).
    { apply later_flow_ext. intros k Hk. apply fupd_gap_ne. by intros ->. }
    assert (Hup : wsum c (colw (keys cs)) (gap x1 y1)
                  = wsum c (colw (keys cs)) (gap x y)
                    + colw (keys cs) Lp * (gap x1 y1 p - gap x y p)).
    { apply wsum_update; [done|apply Hsub; left|].
      intros k Hk. by apply fupd_gap_ne. }
    assert (Hsp : wsum c (colw (p :: keys cs)) (gap x y)
                  = wsum c (share p) (gap x y) + wsum c (colw (keys cs)) (gap x y)).
    { by rewrite <-wsum_plus_w. }
    rewrite total_cons. cbn [later_flow].
    rewrite Hsp, Hfp. rewrite Hup, Hlf in IH.
    generalize dependent (total cs (gap x' y')).
    generalize dependent (later_flow cs (gap x' y')).
    generalize dependent (later_flow cs (gap x y)).
    generalize dependent (wsum c (colw (keys cs)) (gap x y)).
    generalize dependent (wsum c (share p) (gap x y)).
    generalize dependent (colw (keys cs) Lp).
    generalize dependent (gap x1 y1 p).
    generalize dependent (gap x y p).
    intros. qc_lra.
Qed.

Lemma wsum_const_0 (c : corpus) g : wsum c (λ _, 0) g = 0.
Proof. induction c as [|[??] c IH]; [done|]. rewrite wsum_cons, IH. ring. Qed.

Lemma wnorm_ext (c : corpus) d (g1 g2 : string → Qc) :
  (∀ k, k ∈ keys c → g1 k = g2 k) → wnorm c d g1 = wnorm c d g2.
Proof.
  intros Heq. unfold wnorm, total.
  by rewrite (wsum_ext c _ g1 g2), (later_flow_ext c g1 g2).
Qed.

Lemma sweep_contracts (c : corpus) d (x y : string → Qc) :
  NoDup (keys c) → 0 ≤ d → d ≤ 1 →
  wnorm c d (gap (sweep c d (keys c) x) (sweep c d (keys c) y))
  ≤ d * wnorm c d (gap x y).
Proof.
  intros Hnd Hd0 Hd1. unfold wnorm.
  pose proof (sweep_contract_inv c c d x y Hnd Hd0 Hnd (λ e He, He)) as Hinv.
  assert (Hc : wsum c (colw (keys c)) (gap x y) ≤ total c (gap x y)).
  { apply wsum_mono_w; [|apply gap_nonneg]. intros e _. by apply colw_le_1. }
  pose proof (later_flow_nonneg c (gap x y) (gap_nonneg x y)) as Hv.
  apply (Qcmult_le_mono_nonneg_l _ _ d) in Hc; [|done].
  assert (Hdd : d * (d * later_flow c (gap x y)) ≤ d * later_flow c (gap x y)).
  { rewrite <-(Qcmult_1_l (d * later_flow c (gap x y))) at 2.
    apply Qcmult_le_mono_nonneg_r; [|done]. by apply Qcmult_nonneg_nonneg. }
  replace (d * (total c (gap x y) - d * later_flow c (gap x y)))
    with (d * total c (gap x y) - d * (d * later_flow c (gap x y))) by ring.
  generalize dependent (total c (gap (sweep c d (keys c) x) (sweep c d (keys c) y))).
  generalize dependent (later_flow c (gap (sweep c d (keys c) x) (sweep c d (keys c) y))).
  generalize dependent (d * wsum c (colw (keys c)) (gap x y)).
  generalize dependent (d * total c (gap x y)).
  generalize dependent (d * (d * later_flow c (gap x y))).
  generalize dependent (d * later_flow c (gap x y)).
  intros. qc_lra.
Qed.

Lemma wnorm_elem (c : corpus) d g k :
  NoDup (keys c) → 0 ≤ d → d ≤ 1 → (∀ k, 0 ≤ g k) → k ∈ keys c →
  (1 - d) * g k ≤ wnorm c d g.
Proof.
  intros Hnd Hd0 Hd1 Hg Hk. unfold wnorm.
  pose proof (later_flow_le_total c g Hnd Hg) as Hv.
  pose proof (wsum_elem_le c g k Hg Hk) as Hk'. fold (total c g) in Hk'.
  apply (Qcmult_le_mono_nonneg_l _ _ d) in Hv; [|done].
  apply (Qcmult_le_mono_nonneg_l _ _ (1 - d)) in Hk'; [|qc_lra].
  replace ((1 - d) * total c g) with (total c g - d * total c g) in Hk' by ring.
  generalize dependent (d * later_flow c g).
  generalize dependent (d * total c g).
  generalize dependent ((1 - d) * g k).
  intros. qc_lra.
Qed.

(** ** Geometric decay *)

Lemma Qc_archimedean (q : Qc) : ∃ n : nat, q ≤ Qc_of_nat n.
Proof.
  exists (Z.to_nat (Qnum q)). destruct q as [[a b] Hq].
  unfold Qcle, Qc_of_nat, Qc_of_Z, Qle. simpl.
  rewrite Z.mul_1_r. nia.
Qed.

Lemma Qcpower_nonneg (d : Qc) n : 0 ≤ d → 0 ≤ d ^ n.
Proof.
  intros Hd. induction n as [|n IH]; simpl; [done|].
  by apply Qcmult_nonneg_nonneg.
Qed.

Lemma Qcpower_bernoulli (d : Qc) n :
  0 ≤ d → d ≤ 1 → d ^ n * (1 + Qc_of_nat n * (1 - d)) ≤ 1.
Proof.
  intros Hd0 Hd1. induction n as [|n IH].
  - simpl. rewrite Qc_of_nat_0. 
    replace (1 * (1 + 0 * (1 - d))) with (Q2Qc 1) by ring. done.
  - eapply Qcle_trans; [|exact IH].
    cbn [Qcpower]. rewrite Qc_of_nat_S.
    replace (d * d ^ n * (1 + (Qc_of_nat n + 1) * (1 - d)))
      with (d ^ n * (d * (1 + (Qc_of_nat n + 1) * (1 - d)))) by ring.
    apply Qcmult_le_mono_nonneg_l; [by apply Qcpower_nonneg|].
    pose proof (Qc_of_nat_nonneg n) as Hn.
    assert (0 ≤ (Qc_of_nat n + 1) * ((1 - d) * (1 - d))) as Hsq.
    { apply Qcmult_nonneg_nonneg; [qc_lra|].
      apply Qcmult_nonneg_nonneg; qc_lra. }
    replace (d * (1 + (Qc_of_nat n + 1) * (1 - d)))
      with (1 + Qc_of_nat n * (1 - d) - (Qc_of_nat n + 1) * ((1 - d) * (1 - d)))
      by ring.
    generalize dependent ((Qc_of_nat n + 1) * ((1 - d) * (1 - d))).
    generalize dependent (Qc_of_nat n * (1 - d)).
    intros. qc_lra.
Qed.

Lemma geometric_decay (d B η : Qc) :
  0 ≤ d → d < 1 → 0 < η → ∃ n : nat, d ^ n * B ≤ η.
Proof.
  intros Hd0 Hd1 Hη.
  destruct (Qc_archimedean (B / (η * (1 - d)))) as [n Hn].
  exists n.
  assert (0 < η * (1 - d)) as Hpos by (apply Qcmult_pos_pos; qc_lra).
  assert (B ≤ Qc_of_nat n * (η * (1 - d))) as HB.
  { apply (Qcmult_le_mono_nonneg_r _ _ (η * (1 - d))) in Hn;
      [|by apply Qclt_le_weak].
    replace (B / (η * (1 - d)) * (η * (1 - d))) with B in Hn; [done|].
    field. split; qc_lra. }
  pose proof (Qcpower_bernoulli d n Hd0 (Qclt_le_weak _ _ Hd1)) as Hbern.
  pose proof (Qcpower_nonneg d n Hd0) as Hp.
  eapply Qcle_trans.
  - apply (Qcmult_le_mono_nonneg_l _ (η * (1 + Qc_of_nat n * (1 - d)))); [done|].
    pose proof (Qc_of_nat_nonneg n).
    replace (η * (1 + Qc_of_nat n * (1 - d)))
      with (η + Qc_of_nat n * (η * (1 - d))) by ring.
    generalize dependent (Qc_of_nat n * (η * (1 - d))). intros. qc_lra.
  - replace (d ^ n * (η * (1 + Qc_of_nat n * (1 - d))))
      with (η * (d ^ n * (1 + Qc_of_nat n * (1 - d)))) by ring.
    rewrite <-(Qcmult_1_r η) at 2.
    apply Qcmult_le_mono_nonneg_l; [by apply Qclt_le_weak|done].
Qed.

(** ** The iterative estimator: the loop *)

Lemma minChange_pos : 0 < minChange.
Proof. done. Qed.

(** The change of the ranks in the pass that starts from [pd], measured in
    the weighted norm. *)
Lemma pass_gap_contracts (c : corpus) d (pd pd' : dict Qc) :
  NoDup (keys c) → 0 ≤ d → d ≤ 1 →
  (∀ k, rank_of pd' k = sweep c d (keys c) (rank_of pd) k) →
  wnorm c d (gap (sweep c d (keys c) (rank_of pd')) (rank_of pd'))
  ≤ d * wnorm c d (gap (sweep c d (keys c) (rank_of pd)) (rank_of pd)).
Proof.
  intros Hnd Hd0 Hd1 Hrk.
  rewrite (wnorm_ext c d _
             (gap (sweep c d (keys c) (sweep c d (keys c) (rank_of pd)))
                  (sweep c d (keys c) (rank_of pd)))).
  - by apply sweep_contracts.
  - intros k _. unfold gap. rewrite Hrk. f_equal. f_equal.
    by apply sweep_ext.
Qed.

Lemma rank_loop_fuel (c : corpus) d :
  NoDup (keys c) → 0 ≤ d → d < 1 →
  ∀ n (pd : dict Qc) B,
    keys pd = keys c →
    wnorm c d (gap (sweep c d (keys c) (rank_of pd)) (rank_of pd)) ≤ B →
    d ^ n * B ≤ (1 - d) * minChange →
    ∃ m, rank_loop (S n) c d pd = Some (Ok m).
Proof.
  intros Hnd Hd0 Hd1. induction n as [|n IH]; intros pd B Hk HB Hn;
    destruct (rank_pass_Ok c d pd Hnd Hk) as (pd' & flag & Hpass & Hk' & Hrk & Hfl);
    cbn [rank_loop]; rewrite Hpass; destruct flag; eauto.
  - exfalso. destruct (proj1 Hfl eq_refl) as (p & Hp & Hgt).
    rewrite Hrk in Hgt. fold (gap (sweep c d (keys c) (rank_of pd)) (rank_of pd) p) in Hgt.
    pose proof (wnorm_elem c d _ p Hnd Hd0 (Qclt_le_weak _ _ Hd1)
                  (gap_nonneg (sweep c d (keys c) (rank_of pd)) (rank_of pd)) Hp) as Hel.
    cbn [Qcpower] in Hn. rewrite Qcmult_1_l in Hn.
    assert ((1 - d) * gap (sweep c d (keys c) (rank_of pd)) (rank_of pd) p
            ≤ (1 - d) * minChange) as Hle.
    { eapply Qcle_trans; [exact Hel|]. eapply Qcle_trans; [exact HB|exact Hn]. }
    apply Qcmult_le_mono_pos_l in Hle; [|qc_lra].
    by apply Qcle_not_lt in Hle.
  - apply (IH pd' (d * B)); [done| |].
    + eapply Qcle_trans.
      * apply pass_gap_contracts; [done|done|by apply Qclt_le_weak|done].
      * by apply Qcmult_le_mono_nonneg_l.
    + cbn [Qcpower] in Hn.
      by replace (d ^ n * (d * B)) with (d * d ^ n * B) by ring.
Qed.

Lemma rank_loop_terminates (c : corpus) d (pd : dict Qc) :
  NoDup (keys c) → 0 ≤ d → d < 1 → keys pd = keys c →
  ∃ fuel m, rank_loop fuel c d pd = Some (Ok m).
Proof.
  intros Hnd Hd0 Hd1 Hk.
  destruct (geometric_decay d
              (wnorm c d (gap (sweep c d (keys c) (rank_of pd)) (rank_of pd)))
              ((1 - d) * minChange) Hd0 Hd1) as [n Hn].
  { apply Qcmult_pos_pos; [qc_lra|apply minChange_pos]. }
  exists (S n). by eapply rank_loop_fuel.
Qed.

(** More fuel does not change a result. *)
Lemma rank_loop_more_fuel fuel fuel' (c : corpus) d (pd : dict Qc) r :
  (fuel ≤ fuel')%nat → rank_loop fuel c d pd = Some r →
  rank_loop fuel' c d pd = Some r.
Proof.
  revert fuel' pd. induction fuel as [|fuel IH]; intros fuel' pd Hle; [done|].
  destruct fuel' as [|fuel']; [lia|]. cbn [rank_loop].
  destruct (rank_pass c d pd) as [[pd' []]|e]; [|done..].
  apply IH. lia.
Qed.

(** Whatever the loop returns was produced by a pass that left [flag]
    unset. *)
Lemma rank_loop_inv fuel (c : corpus) d (pd : dict Qc) r :
  NoDup (keys c) → keys pd = keys c → rank_loop fuel c d pd = Some r →
  ∃ pd0 m, r = Ok m ∧ keys pd0 = keys c ∧ rank_pass c d pd0 = Ok (m, false).
Proof.
  intros Hnd. revert pd. induction fuel as [|fuel IH]; intros pd Hk; [done|].
  cbn [rank_loop].
  destruct (rank_pass_Ok c d pd Hnd Hk) as (pd' & flag & Hpass & Hk' & _).
  rewrite Hpass. destruct flag; [by apply IH|].
  intros [= <-]. by exists pd, pd'.
Qed.

Lemma iterate_pagerank_init fuel (c : corpus) d :
  NoDup (keys c) → c ≠ [] →
  iterate_pagerank fuel c d
  = rank_loop fuel c d (map (λ k, (k, 1 / Qc_of_nat (length c))) (keys c)).
Proof.
  intros Hnd Hne. unfold iterate_pagerank.
  rewrite pydiv_Ok by (apply Qc_of_nat_ne_0; by destruct c).
  by rewrite fill_dict_nil.
Qed.

Lemma iterate_pagerank_empty fuel d :
  iterate_pagerank fuel [] d = Some (Raise ZeroDivisionError).
Proof. done. Qed.

(** ** Ranks stay non-negative *)

Lemma values_rank_of (pd : dict Qc) :
  NoDup (keys pd) → values pd = map (rank_of pd) (keys pd).
Proof.
  unfold keys, values. induction pd as [|[k v] pd IH]; csimpl; [done|].
  intros [Hk Hnd]%NoDup_cons. f_equal.
  - unfold rank_of. simpl. by rewrite decide_True.
  - rewrite IH by done. apply map_ext_in. intros k' Hk'%list_elem_of_In.
    unfold rank_of. simpl. rewrite decide_False; [done|]. by intros ->.
Qed.

Lemma base_rank_nonneg (c : corpus) d : c ≠ [] → d ≤ 1 → 0 ≤ base_rank c d.
Proof.
  intros Hne Hd. unfold base_rank.
  apply Qcmult_nonneg_nonneg; [qc_lra|].
  apply Qclt_le_weak, Qcinv_pos, Qc_of_nat_pos. destruct c; [done|simpl; lia].
Qed.

Lemma base_rank_total (c : corpus) d :
  c ≠ [] → Qc_of_nat (length c) * base_rank c d = 1 - d.
Proof.
  intros Hne. unfold base_rank. field.
  apply Qc_of_nat_ne_0. by destruct c.
Qed.

Lemma sweep_nonneg (c : corpus) d rows (ρ : string → Qc) :
  c ≠ [] → 0 ≤ d → d ≤ 1 → (∀ k, 0 ≤ ρ k) → ∀ k, 0 ≤ sweep c d rows ρ k.
Proof.
  intros Hne Hd0 Hd1. revert ρ.
  induction rows as [|p rows IH]; intros ρ Hρ k; cbn [sweep]; [done|].
  apply IH. intros k'. unfold fupd. case_decide; [|done].
  apply Qcplus_nonneg_nonneg; [by apply base_rank_nonneg|].
  apply Qcmult_nonneg_nonneg; [done|].
  apply wsum_nonneg; [apply share_nonneg|done].
Qed.

Lemma rank_pass_nonneg (c : corpus) d (pd pd' : dict Qc) flag :
  NoDup (keys c) → keys pd = keys c → 0 ≤ d → d ≤ 1 →
  (∀ k, 0 ≤ rank_of pd k) → rank_pass c d pd = Ok (pd', flag) →
  ∀ k, 0 ≤ rank_of pd' k.
Proof.
  intros Hnd Hk Hd0 Hd1 Hpos Hpass k.
  destruct (rank_pass_Ok c d pd Hnd Hk) as (pd'' & flag' & Hpass' & _ & Hrk & _).
  rewrite Hpass in Hpass'. injection Hpass' as <- <-.
  destruct (decide (c = [])) as [->|Hne].
  - unfold rank_pass in Hpass. simpl in Hpass. injection Hpass as <-. done.
  - rewrite Hrk. by apply sweep_nonneg.
Qed.

Lemma rank_loop_nonneg fuel (c : corpus) d (pd m : dict Qc) :
  NoDup (keys c) → keys pd = keys c → 0 ≤ d → d ≤ 1 →
  (∀ k, 0 ≤ rank_of pd k) → rank_loop fuel c d pd = Some (Ok m) →
  keys m = keys c ∧ ∀ k, 0 ≤ rank_of m k.
Proof.
  intros Hnd Hk Hd0 Hd1. revert pd Hk.
  induction fuel as [|fuel IH]; intros pd Hk Hpos; [done|]. cbn [rank_loop].
  destruct (rank_pass_Ok c d pd Hnd Hk) as (pd' & flag & Hpass & Hk' & _).
  rewrite Hpass.
  pose proof (rank_pass_nonneg c d pd pd' flag Hnd Hk Hd0 Hd1 Hpos Hpass) as Hpos'.
  destruct flag; [by apply IH|]. by intros [= <-].
Qed.

Lemma rank_of_const (ks : list string) (v : Qc) k :
  0 ≤ v → 0 ≤ rank_of (map (λ k, (k, v)) ks) k.
Proof.
  intros Hv. unfold rank_of.
  destruct (decide (k ∈ ks)) as [Hk|Hk].
  - by rewrite dict_lookup_const.
  - rewrite <-(keys_const ks v) in Hk. apply dict_lookup_None in Hk.
    by rewrite Hk.
Qed.

(** ** How far the sum of the ranks drifts from one *)

Lemma gap_fupd_self (e e' : string → Qc) p :
  gap (fupd e p (e' p)) e' p = 0.
Proof.
  unfold gap, fupd. rewrite decide_True by done.
  replace (e' p - e' p) with (Q2Qc 0) by ring. by apply Qcabs.Qcabs_pos.
Qed.

Lemma gap_fupd_ne (e e' : string → Qc) p v k :
  k ≠ p → gap (fupd e p v) e' k = gap e e' k.
Proof. intros. unfold gap, fupd. by rewrite decide_False. Qed.

Lemma Qcabs_le_iff (x y : Qc) : Qcabs.Qcabs x ≤ y ↔ - y ≤ x ∧ x ≤ y.
Proof. apply Qcabs.Qcabs_Qcle_condition. Qed.

Lemma sweep_drift_inv (c cs : corpus) d (e : string → Qc) :
  NoDup (keys c) → 0 ≤ d → NoDup (keys cs) → (∀ x, x ∈ cs → x ∈ c) →
  Qcabs.Qcabs (total cs (sweep c d (keys cs) e)
               - Qc_of_nat (length cs) * base_rank c d
               - d * wsum c (colw (keys cs)) (sweep c d (keys cs) e))
  ≤ d * wsum c (colw (keys cs)) (gap e (sweep c d (keys cs) e)).
Proof.
  intros Hndc Hd. revert e.
  induction cs as [|[p Lp] cs IH]; intros e Hnd Hsub.
  - unfold total, colw. simpl. rewrite !wsum_nil, !wsum_const_0, Qc_of_nat_0.
    replace (0 - 0 * base_rank c d - d * 0) with (Q2Qc 0) by ring.
    replace (d * 0) with (Q2Qc 0) by ring. by rewrite Qcabs.Qcabs_pos.
  - change (keys ((p, Lp) :: cs)) with (p :: keys cs) in *.
    apply NoDup_cons in Hnd as [Hp Hnd].
    cbn [sweep length].
    set (v := base_rank c d + inflow c d e p).
    set (e1 := fupd e p v).
    specialize (IH e1 Hnd (λ x Hx, Hsub x (list_elem_of_further _ _ _ Hx))).
    set (e' := sweep c d (keys cs) e1) in *.
    assert (Hv : e' p = v).
    { unfold e'. rewrite sweep_notin by done. unfold e1, fupd. by rewrite decide_True. }
    assert (Hg : wsum c (colw (keys cs)) (gap e1 e')
                 ≤ wsum c (colw (keys cs)) (gap e e')).
    { rewrite (wsum_update c _ (gap e1 e') (gap e e') p Lp);
        [|done|apply Hsub; left|by intros; apply gap_fupd_ne].
      assert (gap e1 e' p = 0) as ->.
      { unfold e1. rewrite <-Hv. apply gap_fupd_self. }
      pose proof (colw_nonneg (keys cs) Lp) as H1.
      pose proof (gap_nonneg e e' p) as H2.
      pose proof (Qcmult_nonneg_nonneg _ _ H1 H2) as H3.
      replace (colw (keys cs) Lp * (0 - gap e e' p))
        with (- (colw (keys cs) Lp * gap e e' p)) by ring.
      generalize dependent (colw (keys cs) Lp * gap e e' p).
      generalize dependent (wsum c (colw (keys cs)) (gap e e')).
      intros. qc_lra. }
    apply (Qcmult_le_mono_nonneg_l _ _ d) in Hg; [|done].
    assert (Hs : Qcabs.Qcabs (d * wsum c (share p) e - d * wsum c (share p) e')
                 ≤ d * wsum c (share p) (gap e e')).
    { replace (d * wsum c (share p) e - d * wsum c (share p) e')
        with (d * wsum c (share p) (λ k, e k - e' k))
        by (rewrite wsum_minus; ring).
      rewrite Qcabs.Qcabs_Qcmult, (Qcabs.Qcabs_pos d) by done.
      apply Qcmult_le_mono_nonneg_l; [done|].
      apply wsum_abs, share_nonneg. }
    assert (Hsp : ∀ g, d * wsum c (colw (p :: keys cs)) g
                  = d * wsum c (share p) g + d * wsum c (colw (keys cs)) g).
    { intros g. rewrite <-Qcmult_plus_distr_r. f_equal. by rewrite <-wsum_plus_w. }
    rewrite total_cons, !Hsp, Hv, Qc_of_nat_S.
    unfold v, inflow.
    apply Qcabs_le_iff in IH. apply Qcabs_le_iff in Hs. apply Qcabs_le_iff.
    replace ((Qc_of_nat (length cs) + 1) * base_rank c d)
      with (Qc_of_nat (length cs) * base_rank c d + base_rank c d) by ring.
    generalize dependent (d * wsum c (colw (keys cs)) (gap e e')).
    generalize dependent (d * wsum c (colw (keys cs)) (gap e1 e')).
    generalize dependent (d * wsum c (share p) (gap e e')).
    generalize dependent (d * wsum c (colw (keys cs)) e').
    generalize dependent (d * wsum c (share p) e').
    generalize dependent (d * wsum c (share p) e).
    generalize dependent (Qc_of_nat (length cs) * base_rank c d).
    generalize dependent (total cs e').
    generalize dependent (base_rank c d).
    intros. qc_lra.
Qed.

(** On a graph without dead ends the whole rank of every page flows to
    pages of the corpus. *)
Lemma colw_keys_1 (c : corpus) x :
  valid_corpus c → no_dead_end c → x ∈ c → colw (keys c) x.2 = 1.
Proof.
  intros Hv Hnd Hx. apply colw_eq_1; [apply Hv| |].
  - unfold no_dead_end in Hnd. rewrite Forall_forall in Hnd. by apply Hnd.
  - destruct Hv as [_ Hall]. rewrite Forall_forall in Hall.
    destruct (Hall x Hx) as [_ Hsub]. rewrite Forall_forall in Hsub.
    intros q Hq. by apply Hsub, elem_of_elements.
Qed.

Lemma sweep_drift (c : corpus) d (e : string → Qc) :
  valid_corpus c → no_dead_end c → c ≠ [] → 0 ≤ d →
  Qcabs.Qcabs ((1 - d) * (total c (sweep c d (keys c) e) - 1))
  ≤ d * total c (gap e (sweep c d (keys c) e)).
Proof.
  intros Hv Hnd Hne Hd.
  pose proof (sweep_drift_inv c c d e (proj1 Hv) Hd (proj1 Hv) (λ x Hx, Hx)) as Hinv.
  rewrite !(wsum_ext_w c (colw (keys c)) (λ _, 1)) in Hinv
    by (intros; by apply colw_keys_1).
  rewrite base_rank_total in Hinv by done.
  fold (total c (sweep c d (keys c) e)) in Hinv.
  fold (total c (gap e (sweep c d (keys c) e))) in Hinv.
  replace ((1 - d) * (total c (sweep c d (keys c) e) - 1))
    with (total c (sweep c d (keys c) e) - (1 - d)
          - d * total c (sweep c d (keys c) e)) by ring.
  done.
Qed.

(** ** The in-place pass, page by page *)

Lemma sweep_app (c : corpus) d rows1 rows2 (ρ : string → Qc) :
  sweep c d (rows1 ++ rows2) ρ = sweep c d rows2 (sweep c d rows1 ρ).
Proof.
  revert ρ. induction rows1 as [|p rows1 IH]; intros ρ; cbn [sweep app]; [done|].
  apply IH.
Qed.

(** The new rank of a page is computed from the new ranks of the pages
    before it in key order and from the previous ranks of the others. *)
Lemma sweep_in_place (c : corpus) d (done todo : list string) p (ρ : string → Qc) :
  NoDup (done ++ p :: todo) →
  sweep c d (done ++ p :: todo) ρ p
  = base_rank c d
    + inflow c d (λ k, if decide (k ∈ done)
                       then sweep c d (done ++ p :: todo) ρ k else ρ k) p.
Proof.
  intros Hnd. apply NoDup_app in Hnd as (Hnd1 & Hdisj & Hnd2).
  apply NoDup_cons in Hnd2 as [Hp Hnd2].
  rewrite sweep_app. cbn [sweep].
  rewrite sweep_notin by done. unfold fupd at 1. rewrite decide_True by done.
  f_equal. apply inflow_ext. intros k _. case_decide as Hk.
  - cbn [sweep]. rewrite (sweep_notin c d todo).
    + unfold fupd. rewrite decide_False; [done|].
      intros ->. apply (Hdisj p); [done|left].
    + intros Hk'. apply (Hdisj k); [done|by right].
  - by rewrite sweep_notin.
Qed.

(** ** What the estimators return *)

(** Dead ends are skipped by the inner loop on every corpus. *)
Lemma rank_sum_skips_dead_ends (c : corpus) d page (pd : dict Qc) x :
  rank_sum c d page pd x
  = rank_sum (filter (λ e, snd e ≠ ∅) c) d page pd x.
Proof.
  unfold rank_sum. revert x. induction c as [|[q L] c IH]; intros x; [done|].
  rewrite filter_cons. cbn [snd]. case_decide as HL.
  - cbn [for_each]. apply bind_ext. intros x'. apply IH.
  - subst L. cbn [for_each].
    rewrite decide_False by set_solver. rewrite bind_Ok_l. apply IH.
Qed.

(** Without dead ends the counters partition the [n] draws and the
    estimates sum to one. *)
Lemma sample_pagerank_partition (g : rng) (c : corpus) (d : Qc) (n : Z) :
  valid_corpus c → c ≠ [] → no_dead_end c → (1 ≤ n)%Z →
  ∃ cd m, sample_counts g c d n = Ok cd ∧ Zsum (values cd) = n
          ∧ sample_pagerank g c d n = Ok m ∧ Qcsum (values m) = 1.
Proof.
  intros Hv Hne Hnd Hn.
  destruct (sample_counts_Ok g c d n Hv Hne Hnd) as [cd Hcd].
  pose proof (sample_pagerank_normalise g c d n cd Hv ltac:(lia) Hcd) as Hm.
  destruct (sample_pagerank_inv g c d n _ Hv Hn Hm) as (_ & _ & Hs).
  destruct (sample_counts_inv g c d n cd Hv Hcd) as (_ & Hz & _).
  eexists cd, _. split_and!; [done|lia|done|done].
Qed.

Lemma total_const (c : corpus) v : total c (λ _, v) = Qc_of_nat (length c) * v.
Proof.
  unfold total. induction c as [|[q L] c IH].
  - rewrite wsum_nil. cbn [length]. rewrite Qc_of_nat_0. ring.
  - rewrite wsum_cons, IH. cbn [length]. rewrite Qc_of_nat_S. ring.
Qed.

Lemma total_ext (c : corpus) (g1 g2 : string → Qc) :
  (∀ k, k ∈ keys c → g1 k = g2 k) → total c g1 = total c g2.
Proof. apply wsum_ext. Qed.

Lemma total_rank_of (c : corpus) (m : dict Qc) :
  NoDup (keys c) → keys m = keys c → total c (rank_of m) = Qcsum (values m).
Proof.
  intros Hnd Hk. unfold total. rewrite wsum_const_1.
  rewrite values_rank_of by (by rewrite Hk). by rewrite Hk.
Qed.

Lemma gap_ext (x x' y y' : string → Qc) k :
  x k = x' k → y k = y' k → gap x y k = gap x' y' k.
Proof. intros Hx Hy. unfold gap. by rewrite Hx, Hy. Qed.

(** After a pass the sum of the ranks is off one by at most [d/(1-d)] times
    the total change of the ranks in that pass. *)
Lemma pass_sum_bound (c : corpus) d (pd pd' : dict Qc) flag :
  valid_corpus c → no_dead_end c → c ≠ [] → valid_damping d →
  keys pd = keys c → rank_pass c d pd = Ok (pd', flag) →
  Qcabs.Qcabs (Qcsum (values pd') - 1)
  ≤ d / (1 - d) * total c (gap (rank_of pd) (rank_of pd')).
Proof.
  intros Hv Hnde Hne [Hd0 Hd1] Hk Hpass. pose proof (proj1 Hv) as Hnd.
  destruct (rank_pass_Ok c d pd Hnd Hk) as (pd'' & flag' & Hpass' & Hk' & Hrk & _).
  rewrite Hpass in Hpass'. injection Hpass' as <- <-.
  pose proof (sweep_drift c d (rank_of pd) Hv Hnde Hne (Qclt_le_weak _ _ Hd0)) as Hdr.
  rewrite (total_ext c (sweep c d (keys c) (rank_of pd)) (rank_of pd')) in Hdr
    by (intros; by rewrite Hrk).
  rewrite (total_ext c (gap (rank_of pd) (sweep c d (keys c) (rank_of pd)))
             (gap (rank_of pd) (rank_of pd'))) in Hdr
    by (intros; by apply gap_ext).
  rewrite total_rank_of in Hdr by done.
  rewrite Qcabs.Qcabs_Qcmult, (Qcabs.Qcabs_pos (1 - d)) in Hdr by qc_lra.
  apply (Qcmult_le_mono_pos_l _ _ (1 - d)); [qc_lra|].
  replace ((1 - d) * (d / (1 - d) * total c (gap (rank_of pd) (rank_of pd'))))
    with (d * total c (gap (rank_of pd) (rank_of pd'))) by (field; qc_lra).
  done.
Qed.

(** The pass that ends the loop moved no rank by more than [minChange]. *)
Lemma last_pass_small (c : corpus) d (pd0 m : dict Qc) :
  NoDup (keys c) → keys pd0 = keys c → rank_pass c d pd0 = Ok (m, false) →
  keys m = keys c
  ∧ (∀ k, rank_of m k = sweep c d (keys c) (rank_of pd0) k)
  ∧ ∀ p, p ∈ keys c → Qcabs.Qcabs (rank_of m p - rank_of pd0 p) ≤ minChange.
Proof.
  intros Hnd Hk Hpass.
  destruct (rank_pass_Ok c d pd0 Hnd Hk) as (pd' & flag & Hpass' & Hk' & Hrk & Hfl).
  rewrite Hpass in Hpass'. injection Hpass' as <- <-.
  split_and!; [done..|]. intros p Hp.
  apply Qcnot_lt_le. intros Hlt.
  assert (false = true) as [=]. apply Hfl. by exists p.
Qed.

Lemma returned_sum_bound (c : corpus) d fuel (m : dict Qc) :
  valid_corpus c → no_dead_end c → c ≠ [] → valid_damping d →
  iterate_pagerank fuel c d = Some (Ok m) →
  Qcabs.Qcabs (Qcsum (values m) - 1)
  ≤ d * Qc_of_nat (length c) * minChange / (1 - d).
Proof.
  intros Hv Hnde Hne [Hd0 Hd1] Hret. pose proof (proj1 Hv) as Hnd.
  rewrite iterate_pagerank_init in Hret by done.
  apply rank_loop_inv in Hret as (pd0 & m' & [= <-] & Hk0 & Hpass);
    [|done|by rewrite keys_const].
  destruct (last_pass_small c d pd0 m Hnd Hk0 Hpass) as (Hk & Hrk & Hsmall).
  pose proof (sweep_drift c d (rank_of pd0) Hv Hnde Hne (Qclt_le_weak _ _ Hd0)) as Hdr.
  rewrite (total_ext c (sweep c d (keys c) (rank_of pd0)) (rank_of m)) in Hdr
    by (intros; by rewrite Hrk).
  rewrite total_rank_of in Hdr by done.
  assert (Hg : total c (gap (rank_of pd0) (sweep c d (keys c) (rank_of pd0)))
               ≤ Qc_of_nat (length c) * minChange).
  { rewrite <-total_const. apply wsum_mono; [done|].
    intros k Hk'. unfold gap. rewrite <-Hrk, Qcabs.Qcabs_Qcminus. by apply Hsmall. }
  apply (Qcmult_le_mono_nonneg_l _ _ d) in Hg; [|by apply Qclt_le_weak].
  rewrite Qcabs.Qcabs_Qcmult, (Qcabs.Qcabs_pos (1 - d)) in Hdr by qc_lra.
  apply (Qcmult_le_mono_pos_l _ _ (1 - d)); [qc_lra|].
  replace ((1 - d) * (d * Qc_of_nat (length c) * minChange / (1 - d)))
    with (d * (Qc_of_nat (length c) * minChange)) by (field; qc_lra).
  eapply Qcle_trans; [exact Hdr|exact Hg].
Qed.

Lemma iterate_pagerank_returns (c : corpus) d :
  NoDup (keys c) → c ≠ [] → 0 ≤ d → d < 1 →
  ∃ fuel m, iterate_pagerank fuel c d = Some (Ok m).
Proof.
  intros Hnd Hne Hd0 Hd1.
  destruct (rank_loop_terminates c d
              (map (λ k, (k, 1 / Qc_of_nat (length c))) (keys c)) Hnd Hd0 Hd1)
    as (fuel & m & Hm); [by rewrite keys_const|].
  exists fuel, m. by rewrite iterate_pagerank_init.
Qed.

Lemma iterate_pagerank_more_fuel fuel fuel' (c : corpus) d r :
  (fuel ≤ fuel')%nat → iterate_pagerank fuel c d = Some r →
  iterate_pagerank fuel' c d = Some r.
Proof.
  unfold iterate_pagerank. destruct (pydiv _ _); [|done].
  apply rank_loop_more_fuel.
Qed.

Lemma iterate_pagerank_nonneg fuel (c : corpus) d (m : dict Qc) :
  valid_corpus c → c ≠ [] → 0 ≤ d → d ≤ 1 →
  iterate_pagerank fuel c d = Some (Ok m) →
  keys m = keys c ∧ Forall (λ v, 0 ≤ v) (values m).
Proof.
  intros [Hnd _] Hne Hd0 Hd1 Hret.
  rewrite iterate_pagerank_init in Hret by done.
  apply rank_loop_nonneg in Hret as [Hk Hpos]; [|done|by rewrite keys_const|done..|].
  - split; [done|]. rewrite values_rank_of by (by rewrite Hk).
    apply Forall_fmap, Forall_forall. intros k _. apply Hpos.
  - intros k. apply rank_of_const.
    apply Qcmult_nonneg_nonneg; [done|].
    apply Qclt_le_weak, Qcinv_pos, Qc_of_nat_pos. destruct c; [done|simpl; lia].
Qed.

(** ** When the loop stops *)

(** A pass leaves [flag] unset exactly when no rank moved by more than
    [minChange] in it. *)
Lemma rank_pass_stops (c : corpus) d (pd : dict Qc) :
  NoDup (keys c) → keys pd = keys c →
  ∃ pd' flag,
    rank_pass c d pd = Ok (pd', flag)
    ∧ keys pd' = keys c
    ∧ (flag = false ↔
       ∀ p, p ∈ keys c → Qcabs.Qcabs (rank_of pd' p - rank_of pd p) ≤ minChange).
Proof.
  intros Hnd Hk.
  destruct (rank_pass_Ok c d pd Hnd Hk) as (pd' & flag & Hpass & Hk' & _ & Hfl).
  exists pd', flag. split_and!; [done..|]. split.
  - intros -> p Hp. apply Qcnot_lt_le. intros Hlt.
    assert (false = true) as [=]. apply Hfl. by exists p.
  - intros Hsmall. destruct flag; [|done].
    destruct (proj1 Hfl eq_refl) as (p & Hp & Hlt).
    by apply Qcle_not_lt in Hlt; [|apply Hsmall].
Qed.




(** ** The iterative estimator in binary64 *)

Lemma float_rank_of_lookup (pd : dict float) k :
  k ∈ keys pd → dict_get pd k = Ok (float_rank_of pd k).
Proof.
  intros [v Hv]%dict_lookup_is_Some. unfold dict_get, float_rank_of. by rewrite Hv.
Qed.

Lemma float_rank_of_set (pd : dict float) k v k' :
  float_rank_of (dict_set pd k v) k'
  = if decide (k' = k) then v else float_rank_of pd k'.
Proof. unfold float_rank_of. rewrite dict_lookup_set. by case_decide. Qed.

(** The inner loop raises nothing: it reads the ranks of pages of the
    corpus and divides by the size of a set that contains [page]. *)
Lemma binary64_rank_sum_Ok (c : corpus) d page (pd : dict float) x :
  (∀ k, k ∈ keys c → k ∈ keys pd) →
  ∃ v, Binary64.rank_sum c d page pd x = Ok v.
Proof.
  unfold Binary64.rank_sum, keys at 1. revert x.
  induction c as [|[q L] c IH]; intros x Hk; csimpl; [by eexists|].
  destruct (decide (page ∈ L)) as [Hin|Hnin].
  - rewrite float_rank_of_lookup by (apply Hk; left). rewrite bind_Ok_l.
    unfold Binary64.pydiv. rewrite decide_False.
    + rewrite bind_Ok_l. apply IH. intros; apply Hk; by right.
    + by eapply set_len_elem.
  - apply IH. intros; apply Hk; by right.
Qed.

Lemma binary64_rank_step_Ok (c : corpus) d (pd : dict float) (flag : bool) page :
  keys pd = keys c → page ∈ keys c →
  ∃ v, Binary64.rank_step c d (pd, flag) page
       = Ok (dict_set pd page v,
             if float_moved v (float_rank_of pd page) then true else flag).
Proof.
  intros Hk Hp. unfold Binary64.rank_step, Binary64.pydiv.
  rewrite decide_False by (destruct c; [by apply elem_of_nil in Hp|done]).
  rewrite bind_Ok_l.
  destruct (binary64_rank_sum_Ok c d page pd
              ((1 - d) / Binary64.float_of_nat (length c))%float) as [v Hv].
  { intros. by rewrite Hk. }
  rewrite Hv, bind_Ok_l, float_rank_of_lookup, bind_Ok_l by (by rewrite Hk).
  by exists v.
Qed.

(** What the outer loop does to the ranks and to [flag]: a page outside
    [rows] keeps its rank, and [flag] is set exactly when the test of the
    source succeeds for some page of [rows]. *)
Lemma binary64_rank_rows_Ok (c : corpus) d rows (pd : dict float) (flag : bool) :
  NoDup rows → (∀ p, p ∈ rows → p ∈ keys c) → keys pd = keys c →
  ∃ pd' flag',
    for_each (Binary64.rank_step c d) rows (pd, flag) = Ok (pd', flag')
    ∧ keys pd' = keys c
    ∧ (∀ k, k ∉ rows → float_rank_of pd' k = float_rank_of pd k)
    ∧ (flag' = true ↔
       flag = true ∨
       ∃ p, p ∈ rows
            ∧ float_moved (float_rank_of pd' p) (float_rank_of pd p) = true).
Proof.
  revert pd flag. induction rows as [|p rows IH]; intros pd flag Hnd Hsub Hk.
  - exists pd, flag. simpl. split_and!; [done..|].
    split; [by left|]. intros [?|(p & ?%elem_of_nil & _)]; done.
  - apply NoDup_cons in Hnd as [Hp Hnd]. cbn [for_each].
    destruct (binary64_rank_step_Ok c d pd flag p Hk) as [v ->]; [apply Hsub; left|].
    rewrite bind_Ok_l.
    destruct (IH (dict_set pd p v)
                (if float_moved v (float_rank_of pd p) then true else flag))
      as (pd' & flag' & Hrun & Hk' & Hout & Hfl).
    { done. }
    { intros; apply Hsub; by right. }
    { rewrite keys_dict_set_elem; [done|]. rewrite Hk. apply Hsub; left. }
    exists pd', flag'.
    assert (Hvp : float_rank_of pd' p = v).
    { rewrite Hout, float_rank_of_set by done. by rewrite decide_True. }
    assert (Hq : ∀ q, q ∈ rows →
                 float_rank_of (dict_set pd p v) q = float_rank_of pd q).
    { intros q Hq. rewrite float_rank_of_set, decide_False; [done|]. by intros ->. }
    split_and!; [done|done| |].
    + intros k [? ?]%not_elem_of_cons.
      rewrite Hout, float_rank_of_set, decide_False by done. done.
    + rewrite Hfl. split.
      * intros [Hf|(q & Hin & Hch)].
        -- destruct (float_moved v (float_rank_of pd p)) eqn:Hm; [|by left].
           right. exists p. rewrite Hvp. split; [left|done].
        -- right. exists q. split; [by right|]. by rewrite <-Hq.
      * intros [Hf|(q & Hin & Hch)].
        -- left. by destruct (float_moved _ _).
        -- apply elem_of_cons in Hin as [->|Hin].
           ++ left. rewrite Hvp in Hch. by rewrite Hch.
           ++ right. exists q. split; [done|]. by rewrite Hq.
Qed.

(** One pass in binary64 raises nothing, keeps the keys and leaves [flag]
    set exactly when the rank of some page moved by more than
    [minChange]. *)
Lemma binary64_rank_pass_Ok (c : corpus) d (pd : dict float) :
  NoDup (keys c) → keys pd = keys c →
  ∃ pd' flag,
    Binary64.rank_pass c d pd = Ok (pd', flag)
    ∧ keys pd' = keys c
    ∧ (flag = true ↔
       ∃ p, p ∈ keys c
            ∧ float_moved (float_rank_of pd' p) (float_rank_of pd p) = true).
Proof.
  intros Hnd Hk.
  destruct (binary64_rank_rows_Ok c d (keys c) pd false Hnd)
    as (pd' & flag & H1 & H2 & _ & H4); [done..|].
  exists pd', flag. split_and!; [done..|].
  rewrite H4. split; [intros [?|?]; done|by right].
Qed.

Lemma binary64_rank_loop_inv fuel (c : corpus) d (pd : dict float) r :
  NoDup (keys c) → keys pd = keys c → Binary64.rank_loop fuel c d pd = Some r →
  ∃ pd0 m, r = Ok m ∧ keys pd0 = keys c ∧ keys m = keys c
           ∧ Binary64.rank_pass c d pd0 = Ok (m, false).
Proof.
  intros Hnd. revert pd. induction fuel as [|fuel IH]; intros pd Hk; [done|].
  cbn [Binary64.rank_loop].
  destruct (binary64_rank_pass_Ok c d pd Hnd Hk) as (pd' & flag & Hpass & Hk' & _).
  rewrite Hpass. destruct flag; [by apply IH|].
  intros [= <-]. by exists pd, pd'.
Qed.

Lemma binary64_iterate_pagerank_init fuel (c : corpus) d :
  NoDup (keys c) → c ≠ [] →
  Binary64.iterate_pagerank fuel c d
  = Binary64.rank_loop fuel c d
      (map (λ k, (k, (1 / Binary64.float_of_nat (length c))%float)) (keys c)).
Proof.
  intros Hnd Hne. unfold Binary64.iterate_pagerank, Binary64.pydiv.
  rewrite decide_False by (by destruct c).
  by rewrite fill_dict_nil.
Qed.

(** * The claims *)

(** Closed equations between computed rationals. *)
Ltac qc_eq :=
  first [reflexivity | apply Qc_is_canon; reflexivity | progress f_equal; qc_eq].
Ltac qc_eval := vm_compute; qc_eq.

(** C1.  On a dead end the transition model does not return the uniform
    distribution: the division by the number of links of the page raises
    [ZeroDivisionError]. *)
Theorem transition_model_dead_end_raises (c : corpus) (p : string) (d : Qc) :
  dict_lookup c p = Some ∅ →
  transition_model c p d = Raise ZeroDivisionError
  ∧ transition_model c p d ≠ Ok (uniform c).
Proof.
  intros Hp. by rewrite transition_model_dead_end.
Qed.

Lemma transition_model_dead_end_raises_witness :
  transition_model corpus_single "A" DAMPING = Raise ZeroDivisionError
  ∧ transition_model corpus_single "A" DAMPING ≠ Ok (uniform corpus_single).
Proof.
  apply transition_model_dead_end_raises. reflexivity.
Defined.

(** C2.  In a pass of the iterative estimator a page without outbound
    links contributes nothing: with A -> B and B a dead end, the first pass
    gives A the rank [(1-d)/N = 3/40], where the specification asks for
    [(1-d)/N + d * rank(B)/N = 23/80]. *)
Theorem rank_sum_ignores_dead_end :
  let c := corpus_dead_end in
  let base := (1 - DAMPING) / Qc_of_nat (length c) in
  rank_sum c DAMPING "A" (uniform c) base = Ok (Q2Qc (3 # 40))
  ∧ rank_sum_spec c DAMPING "A" (uniform c) base = Ok (Q2Qc (23 # 80))
  ∧ rank_pass c DAMPING (uniform c)
    = Ok ([("A", Q2Qc (3 # 40)); ("B", Q2Qc (111 # 800))]%string, true).
Proof. split_and!; qc_eval. Qed.

(** C3, as amended.  On a graph without dead ends, and in exact arithmetic,
    whatever the iterative estimator returns sums to one up to
    [d * N * minChange / (1 - d)], and after any pass the sum is off one by at
    most [d / (1 - d)] times the total change of the ranks in that pass.  The
    bounds are those of exact arithmetic and do not account for the rounding
    of binary64.  The sum is governed by the threshold of the loop and by the
    in-place update: it need not be one within a floating-point tolerance. *)
Theorem iterate_pagerank_sum_bound (c : corpus) (d : Qc) :
  valid_corpus c → no_dead_end c → c ≠ [] → valid_damping d →
  (∀ fuel m, iterate_pagerank fuel c d = Some (Ok m) →
       Qcabs.Qcabs (Qcsum (values m) - 1)
       ≤ d * Qc_of_nat (length c) * minChange / (1 - d))
  ∧ (∀ pd pd' flag, keys pd = keys c → rank_pass c d pd = Ok (pd', flag) →
       Qcabs.Qcabs (Qcsum (values pd') - 1)
       ≤ d / (1 - d) * total c (gap (rank_of pd) (rank_of pd'))).
Proof.
  intros Hv Hnde Hne Hd. split.
  - intros fuel m. by apply returned_sum_bound.
  - intros pd pd' flag. by apply pass_sum_bound.
Qed.

Lemma iterate_pagerank_sum_bound_witness :
  (∀ fuel m, iterate_pagerank fuel corpus_abc DAMPING = Some (Ok m) →
       Qcabs.Qcabs (Qcsum (values m) - 1)
       ≤ DAMPING * Qc_of_nat (length corpus_abc) * minChange / (1 - DAMPING))
  ∧ (∀ pd pd' flag,
       keys pd = keys corpus_abc →
       rank_pass corpus_abc DAMPING pd = Ok (pd', flag) →
       Qcabs.Qcabs (Qcsum (values pd') - 1)
       ≤ DAMPING / (1 - DAMPING)
         * total corpus_abc (gap (rank_of pd) (rank_of pd'))).
Proof.
  apply iterate_pagerank_sum_bound; [compute_done|compute_done|done|compute_done].
Defined.

(** C3 as stated fails on a graph without dead ends: with B -> A, C -> A and
    A -> B the ranks after the first pass sum to [1489/1200], and the mapping
    the estimator returns sums to more than one plus the tolerance.  This is
    so in exact arithmetic, and it is so for the binary64 numbers the program
    computes, whose exact sum is taken. *)
Lemma iterate_pagerank_sum_counterexample :
  valid_corpus corpus_abc ∧ no_dead_end corpus_abc ∧ valid_damping DAMPING
  ∧ (∃ m pd1 flag,
      iterate_pagerank 14 corpus_abc DAMPING = Some (Ok m)
      ∧ tolerance < Qcabs.Qcabs (Qcsum (values m) - 1)
      ∧ rank_pass corpus_abc DAMPING (uniform corpus_abc) = Ok (pd1, flag)
      ∧ Qcsum (values pd1) = Q2Qc (1489 # 1200)
      ∧ tolerance < Qcabs.Qcabs (Qcsum (values pd1) - 1))
  ∧ (∃ m s pd1 flag s1,
      Binary64.iterate_pagerank 14 corpus_abc Binary64.DAMPING = Some (Ok m)
      ∧ float_sum (values m) = Some s
      ∧ tolerance < Qcabs.Qcabs (s - 1)
      ∧ Binary64.rank_pass corpus_abc Binary64.DAMPING
          (map (λ k, (k, (1 / 3)%float)) (keys corpus_abc)) = Ok (pd1, flag)
      ∧ float_sum (values pd1) = Some s1
      ∧ tolerance < Qcabs.Qcabs (s1 - 1)).
Proof.
  split_and!; [compute_done..| |].
  - eexists _, _, _. split_and!.
    + vm_compute. reflexivity.
    + by vm_compute.
    + vm_compute. reflexivity.
    + qc_eval.
    + by vm_compute.
  - eexists _, _, _, _, _. split_and!.
    + vm_compute. reflexivity.
    + vm_compute. reflexivity.
    + by vm_compute.
    + vm_compute. reflexivity.
    + vm_compute. reflexivity.
    + by vm_compute.
Qed.

(** C4, as amended.  A pass updates the ranks in place, in key order: the
    new rank of a page is computed from the new ranks of the pages before
    it and from the previous ranks of the page itself and of the pages
    after it. *)
Theorem rank_pass_updates_in_place (c : corpus) (d : Qc) (pd : dict Qc) :
  valid_corpus c → keys pd = keys c →
  ∃ pd' flag,
    rank_pass c d pd = Ok (pd', flag)
    ∧ keys pd' = keys c
    ∧ ∀ done p todo,
        keys c = done ++ p :: todo →
        rank_of pd' p
        = base_rank c d
          + inflow c d (λ k, if decide (k ∈ done)
                             then rank_of pd' k else rank_of pd k) p.
Proof.
  intros [Hnd _] Hk.
  destruct (rank_pass_Ok c d pd Hnd Hk) as (pd' & flag & Hpass & Hk' & Hrk & _).
  exists pd', flag. split_and!; [done..|].
  intros done p todo Hsplit. rewrite Hrk, Hsplit.
  rewrite sweep_in_place by (by rewrite <-Hsplit).
  f_equal. apply inflow_ext. intros k _.
  case_decide; [|done]. by rewrite Hrk, Hsplit.
Qed.

Lemma rank_pass_updates_in_place_witness :
  ∃ pd' flag,
    rank_pass corpus_abc DAMPING (uniform corpus_abc) = Ok (pd', flag)
    ∧ keys pd' = keys corpus_abc
    ∧ ∀ done p todo,
        keys corpus_abc = done ++ p :: todo →
        rank_of pd' p
        = base_rank corpus_abc DAMPING
          + inflow corpus_abc DAMPING
              (λ k, if decide (k ∈ done)
                    then rank_of pd' k else rank_of (uniform corpus_abc) k) p.
Proof.
  apply rank_pass_updates_in_place; [compute_done|reflexivity].
Defined.

(** C4 as stated fails: in the first pass over B -> A, C -> A, A -> B the
    rank of B is computed from the rank A has just received, [37/60], and
    not from the rank [1/3] that A had before the pass. *)
Lemma rank_pass_not_synchronous :
  valid_corpus corpus_abc ∧ valid_damping DAMPING
  ∧ ∃ pd' flag pj,
      rank_pass corpus_abc DAMPING (uniform corpus_abc) = Ok (pd', flag)
      ∧ jacobi_pass corpus_abc DAMPING (uniform corpus_abc) = Ok pj
      ∧ rank_of pd' "B" = Q2Qc (689 # 1200)
      ∧ rank_of pj "B" = Q2Qc (1 # 3)
      ∧ pd' ≠ pj.
Proof.
  split_and!; [compute_done..|].
  eexists _, _, _. split_and!.
  - vm_compute. reflexivity.
  - vm_compute. reflexivity.
  - qc_eval.
  - qc_eval.
  - discriminate.
Qed.

(** C5.  The distribution of a page with outbound links sums to one; for a
    dead end no distribution is returned. *)
Theorem transition_model_sum (c : corpus) (p : string) (L : gset string) (d : Qc) :
  valid_corpus c → dict_lookup c p = Some L →
  (L ≠ ∅ → ∃ m, transition_model c p d = Ok m ∧ Qcsum (values m) = 1)
  ∧ (L = ∅ → transition_model c p d = Raise ZeroDivisionError).
Proof.
  intros Hv Hp. split.
  - intros HL.
    destruct (transition_model_linked c p L d Hv Hp HL) as (m & Hm & _ & Hs & _).
    by exists m.
  - intros ->. by apply transition_model_dead_end.
Qed.

Lemma transition_model_sum_witness :
  ((∅ : gset string) ≠ ∅ →
   ∃ m, transition_model corpus_dead_end "B" DAMPING = Ok m ∧ Qcsum (values m) = 1)
  ∧ ((∅ : gset string) = ∅ →
     transition_model corpus_dead_end "B" DAMPING = Raise ZeroDivisionError).
Proof.
  apply transition_model_sum; [compute_done|reflexivity].
Defined.

(** C6, as amended.  The estimator has no threshold parameter; the loop is
    governed by the constant [0.001].  A pass ends the loop exactly when no
    rank moved by more than [0.001] in it, and otherwise the loop goes on
    with the ranks the pass has left; so a mapping that is returned is the
    result of a pass in which every rank moved by at most [0.001]. *)
Theorem iterate_pagerank_fixed_threshold (c : corpus) (d : Qc) :
  NoDup (keys c) →
  (∀ pd, keys pd = keys c →
     ∃ pd' flag,
       rank_pass c d pd = Ok (pd', flag)
       ∧ (flag = false ↔
          ∀ p, p ∈ keys c →
               Qcabs.Qcabs (rank_of pd' p - rank_of pd p) ≤ Q2Qc (1 # 1000))
       ∧ ∀ fuel, rank_loop (S fuel) c d pd
                 = if flag then rank_loop fuel c d pd' else Some (Ok pd'))
  ∧ (∀ fuel m, iterate_pagerank fuel c d = Some (Ok m) →
       ∃ pd0, keys pd0 = keys c
              ∧ rank_pass c d pd0 = Ok (m, false)
              ∧ ∀ p, p ∈ keys c →
                     Qcabs.Qcabs (rank_of m p - rank_of pd0 p) ≤ Q2Qc (1 # 1000)).
Proof.
  intros Hnd. split.
  - intros pd Hk.
    destruct (rank_pass_stops c d pd Hnd Hk) as (pd' & flag & Hpass & _ & Hfl).
    exists pd', flag. split_and!; [done|done|].
    intros fuel. cbn [rank_loop]. by rewrite Hpass.
  - intros fuel m Hm.
    destruct (decide (c = [])) as [->|Hne]; [done|].
    rewrite iterate_pagerank_init in Hm by done.
    apply rank_loop_inv in Hm as (pd0 & m' & [= <-] & Hk0 & Hpass);
      [|done|by rewrite keys_const].
    exists pd0. split_and!; [done..|].
    by destruct (last_pass_small c d pd0 m Hnd Hk0 Hpass) as (_ & _ & ?).
Qed.

Lemma iterate_pagerank_fixed_threshold_witness :
  (∀ pd, keys pd = keys corpus_abc →
     ∃ pd' flag,
       rank_pass corpus_abc DAMPING pd = Ok (pd', flag)
       ∧ (flag = false ↔
          ∀ p, p ∈ keys corpus_abc →
               Qcabs.Qcabs (rank_of pd' p - rank_of pd p) ≤ Q2Qc (1 # 1000))
       ∧ ∀ fuel, rank_loop (S fuel) corpus_abc DAMPING pd
                 = if flag then rank_loop fuel corpus_abc DAMPING pd'
                   else Some (Ok pd'))
  ∧ (∀ fuel m, iterate_pagerank fuel corpus_abc DAMPING = Some (Ok m) →
       ∃ pd0, keys pd0 = keys corpus_abc
              ∧ rank_pass corpus_abc DAMPING pd0 = Ok (m, false)
              ∧ ∀ p, p ∈ keys corpus_abc →
                     Qcabs.Qcabs (rank_of m p - rank_of pd0 p) ≤ Q2Qc (1 # 1000)).
Proof.
  apply iterate_pagerank_fixed_threshold. compute_done.
Defined.

(** C6 as stated fails: the caller cannot supply a threshold.  In the first
    pass over B -> A, C -> A, A -> B no rank moves by more than [1/2], so a
    loop that judged convergence against a threshold [1/2] would stop there;
    the estimator goes on, for thirteen more passes, and returns another
    mapping. *)
Lemma iterate_pagerank_threshold_counterexample :
  valid_corpus corpus_abc ∧ valid_damping DAMPING
  ∧ ∃ pd1 m,
      rank_pass corpus_abc DAMPING (uniform corpus_abc) = Ok (pd1, true)
      ∧ (∀ p, p ∈ keys corpus_abc →
              Qcabs.Qcabs (rank_of pd1 p - rank_of (uniform corpus_abc) p)
              ≤ Q2Qc (1 # 2))
      ∧ iterate_pagerank 1 corpus_abc DAMPING = None
      ∧ iterate_pagerank 13 corpus_abc DAMPING = None
      ∧ iterate_pagerank 14 corpus_abc DAMPING = Some (Ok m)
      ∧ m ≠ pd1.
Proof.
  split_and!; [compute_done..|].
  eexists _, _. split_and!.
  - vm_compute. reflexivity.
  - intros p Hp. change (keys corpus_abc) with ["A"; "B"; "C"]%string in Hp.
    repeat (apply elem_of_cons in Hp as [->|Hp]; [by vm_compute|]).
    by apply elem_of_nil in Hp.
  - vm_compute. reflexivity.
  - vm_compute. reflexivity.
  - vm_compute. reflexivity.
  - discriminate.
Qed.

(** C7.  When the start page is a dead end and two or more samples are
    asked for, the second draw raises [ZeroDivisionError]: no counters and no
    estimates are returned. *)
Theorem sample_pagerank_dead_end_raises
    (g : rng) (c : corpus) (d : Qc) (n : Z) (p : string) :
  valid_corpus c → random_choice g 0 (keys c) = Ok p →
  dict_lookup c p = Some ∅ → (2 ≤ n)%Z →
  sample_counts g c d n = Raise ZeroDivisionError
  ∧ sample_pagerank g c d n = Raise ZeroDivisionError.
Proof.
  intros Hv Hp Hdead Hn.
  assert (sample_counts g c d n = Raise ZeroDivisionError) as Hcd.
  { unfold sample_counts. rewrite fill_dict_nil by apply Hv.
    rewrite Hp, bind_Ok_l.
    destruct (dict_incr_Ok (map (λ k, (k, 0%Z)) (keys c)) p) as (cd & -> & _).
    { rewrite keys_const. by eapply dict_lookup_Some_keys. }
    rewrite bind_Ok_l.
    replace (Z.to_nat (n - 1)) with (S (Z.to_nat (n - 2))) by lia.
    cbn [sample_loop]. by rewrite transition_model_dead_end. }
  split; [done|]. unfold sample_pagerank. by rewrite Hcd.
Qed.

Lemma sample_pagerank_dead_end_raises_witness :
  sample_counts (λ _, 0%Z) corpus_single DAMPING 2 = Raise ZeroDivisionError
  ∧ sample_pagerank (λ _, 0%Z) corpus_single DAMPING 2 = Raise ZeroDivisionError.
Proof.
  apply (sample_pagerank_dead_end_raises _ _ _ _ "A");
    [compute_done|reflexivity|reflexivity|lia].
Defined.

(** C8.  With a single sample the start page chosen by [random.choice]
    gets the estimate one and every other page the estimate zero. *)
Theorem sample_pagerank_single_sample (g : rng) (c : corpus) (d : Qc) :
  valid_corpus c → c ≠ [] →
  ∃ p m,
    random_choice g 0 (keys c) = Ok p ∧ p ∈ keys c
    ∧ sample_pagerank g c d 1 = Ok m
    ∧ keys m = keys c
    ∧ dict_lookup m p = Some 1
    ∧ ∀ q, q ∈ keys c → q ≠ p → dict_lookup m q = Some 0.
Proof.
  intros Hv Hne.
  destruct (sample_counts_1 g c d Hv Hne) as (p & cd & Hp & Hin & Hcd & Hk & Hl).
  exists p, (map (λ e, (e.1, Qc_of_Z e.2 / Qc_of_Z 1)) cd).
  split_and!; [done|done| | | |].
  - by apply sample_pagerank_normalise.
  - by rewrite (keys_fmap_values (λ v, Qc_of_Z v / Qc_of_Z 1)).
  - rewrite (dict_lookup_fmap_values (λ v, Qc_of_Z v / Qc_of_Z 1)), Hl by done.
    rewrite decide_True by done. cbn [fmap option_fmap option_map]. qc_eq.
  - intros q Hq Hne'.
    rewrite (dict_lookup_fmap_values (λ v, Qc_of_Z v / Qc_of_Z 1)), Hl by done.
    rewrite decide_False by done. cbn [fmap option_fmap option_map]. qc_eq.
Qed.

Lemma sample_pagerank_single_sample_witness :
  ∃ p m,
    random_choice (λ _, 0%Z) 0 (keys corpus_abc) = Ok p ∧ p ∈ keys corpus_abc
    ∧ sample_pagerank (λ _, 0%Z) corpus_abc DAMPING 1 = Ok m
    ∧ keys m = keys corpus_abc
    ∧ dict_lookup m p = Some 1
    ∧ ∀ q, q ∈ keys corpus_abc → q ≠ p → dict_lookup m q = Some 0.
Proof.
  apply sample_pagerank_single_sample; [compute_done|done].
Defined.




(** C10.  The mapping each of the three functions returns has the keys of
    the corpus, in the order of the corpus, and no negative value.  The
    transition model returns one for every page with a link; the sampler
    returns one at least when no page is a dead end; the iterative estimator
    raises nothing, and what it returns when its loop stops (C9) is such a
    mapping. *)
Theorem returned_mappings_well_formed (c : corpus) (d : Qc) :
  valid_corpus c → c ≠ [] → valid_damping d →
  (∀ p L, dict_lookup c p = Some L → L ≠ ∅ →
          ∃ m, transition_model c p d = Ok m
               ∧ keys m = keys c ∧ Forall (λ v, 0 ≤ v) (values m))
  ∧ (∀ g n m, (1 ≤ n)%Z → sample_pagerank g c d n = Ok m →
              keys m = keys c ∧ Forall (λ v, 0 ≤ v) (values m))
  ∧ (∀ g n, (1 ≤ n)%Z → no_dead_end c → ∃ m, sample_pagerank g c d n = Ok m)
  ∧ (∀ fuel r, iterate_pagerank fuel c d = Some r →
               ∃ m, r = Ok m
                    ∧ keys m = keys c ∧ Forall (λ v, 0 ≤ v) (values m)).
Proof.
  intros Hv Hne [Hd0 Hd1]. split_and!.
  - intros p L Hp HL.
    destruct (transition_model_linked c p L d Hv Hp HL) as (m & Hm & Hk & _ & Hpos).
    exists m. split_and!; [done..|]. apply Hpos; by apply Qclt_le_weak.
  - intros g n m Hn Hm.
    destruct (sample_pagerank_inv g c d n m Hv Hn Hm) as (? & ? & _). done.
  - intros g n Hn Hnd.
    destruct (sample_counts_Ok g c d n Hv Hne Hnd) as [cd Hcd].
    eexists. apply sample_pagerank_normalise; [done|lia|done].
  - intros fuel r Hr. pose proof Hr as Hr'.
    rewrite iterate_pagerank_init in Hr' by (apply Hv || done).
    apply rank_loop_inv in Hr' as (pd0 & m & -> & _); [|apply Hv|by rewrite keys_const].
    exists m. split; [done|].
    apply (iterate_pagerank_nonneg fuel c d m);
      [done..|by apply Qclt_le_weak|by apply Qclt_le_weak|done].
Qed.

Lemma returned_mappings_well_formed_witness :
  (∀ p L, dict_lookup corpus_abc p = Some L → L ≠ ∅ →
          ∃ m, transition_model corpus_abc p DAMPING = Ok m
               ∧ keys m = keys corpus_abc ∧ Forall (λ v, 0 ≤ v) (values m))
  ∧ (∀ g n m, (1 ≤ n)%Z → sample_pagerank g corpus_abc DAMPING n = Ok m →
              keys m = keys corpus_abc ∧ Forall (λ v, 0 ≤ v) (values m))
  ∧ (∀ g n, (1 ≤ n)%Z → no_dead_end corpus_abc →
            ∃ m, sample_pagerank g corpus_abc DAMPING n = Ok m)
  ∧ (∀ fuel r, iterate_pagerank fuel corpus_abc DAMPING = Some r →
               ∃ m, r = Ok m
                    ∧ keys m = keys corpus_abc ∧ Forall (λ v, 0 ≤ v) (values m)).
Proof.
  apply returned_mappings_well_formed; [compute_done|done|compute_done].
Defined.

(** * Further properties of the code *)

(** ** Dictionaries, again *)

Lemma NoDup_keys_dict_set {V} (d : dict V) k v :
  NoDup (keys d) → NoDup (keys (dict_set d k v)).
Proof.
  intros Hnd. destruct (decide (k ∈ keys d)) as [Hk|Hk].
  - by rewrite keys_dict_set_elem.
  - rewrite keys_dict_set_fresh by done. unfold keys in *.
    rewrite fmap_app. apply NoDup_app. split_and!; [done| |apply NoDup_singleton].
    intros x Hx ->%list_elem_of_singleton. done.
Qed.

Lemma elem_of_dict_lookup {V} (d : dict V) k v :
  NoDup (keys d) → (k, v) ∈ d → dict_lookup d k = Some v.
Proof.
  unfold keys. induction d as [|[k' v'] d IH]; csimpl; [by intros _ ?%elem_of_nil|].
  intros [Hk Hnd]%NoDup_cons [[= -> ->]|Hin]%elem_of_cons.
  - by rewrite decide_True.
  - rewrite decide_False; [by apply IH|].
    intros ->. apply Hk. apply list_elem_of_fmap. by exists (k', v).
Qed.

Lemma dict_ext {V} (d1 d2 : dict V) :
  keys d1 = keys d2 → NoDup (keys d1) →
  (∀ k, k ∈ keys d1 → dict_lookup d1 k = dict_lookup d2 k) → d1 = d2.
Proof.
  unfold keys. revert d2.
  induction d1 as [|[k v] d1 IH]; intros [|[k' v'] d2]; csimpl; try done.
  intros [= <- Hk] [Hnk Hnd]%NoDup_cons Hl.
  pose proof (Hl k ltac:(left)) as Hkk. rewrite !decide_True in Hkk by done.
  injection Hkk as <-. f_equal. apply IH; [done..|].
  intros k' Hk'. specialize (Hl k' ltac:(by right)).
  rewrite !decide_False in Hl; [done|by intros ->..].
Qed.

(** ** The transition model, value by value *)

Lemma link_loop_lookup (lpp : Qc) (xs : list string) (dist : dict Qc) :
  NoDup xs → (∀ x, x ∈ xs → x ∈ keys dist) →
  ∃ m, for_each (λ dist nowPage,
                   v ← dict_get dist nowPage ;
                   Ok (dict_set dist nowPage (v + lpp))) xs dist = Ok m
       ∧ ∀ q, dict_lookup m q
              = (λ v, v + (if decide (q ∈ xs) then lpp else 0)) <$> dict_lookup dist q.
Proof.
  revert dist. induction xs as [|x xs IH]; intros dist Hnd Hin.
  - exists dist. split; [done|]. intros q.
    destruct (dict_lookup dist q); [|done]. cbn. f_equal.
    rewrite decide_False by apply not_elem_of_nil. ring.
  - apply NoDup_cons in Hnd as [Hx Hnd].
    destruct (proj1 (dict_lookup_is_Some dist x)) as [v Hv]; [apply Hin; left|].
    destruct (IH (dict_set dist x (v + lpp)) Hnd) as (m & Hm & Hl).
    { intros y Hy. rewrite keys_dict_set_elem by (apply Hin; left).
      apply Hin. by right. }
    exists m. cbn [for_each]. rewrite (proj2 (dict_get_Ok _ _ _) Hv), bind_Ok_l.
    split; [done|]. intros q. rewrite Hl, dict_lookup_set.
    destruct (decide (q = x)) as [->|Hq].
    + rewrite Hv. cbn. f_equal.
      rewrite decide_False by done. rewrite decide_True by left. ring.
    + destruct (dict_lookup dist q); [|done]. cbn. f_equal.
      destruct (decide (q ∈ xs)).
      * by rewrite decide_True by (by right).
      * rewrite decide_False; [done|]. by intros [?|?]%elem_of_cons.
Qed.

(** The loop stops with [KeyError] at the first link that is not a key. *)
Lemma link_loop_KeyError (lpp : Qc) (xs : list string) (dist : dict Qc) x :
  x ∈ xs → x ∉ keys dist →
  for_each (λ dist nowPage,
              v ← dict_get dist nowPage ;
              Ok (dict_set dist nowPage (v + lpp))) xs dist = Raise KeyError.
Proof.
  revert dist. induction xs as [|y xs IH]; intros dist Hx Hk.
  - by apply elem_of_nil in Hx.
  - cbn [for_each]. destruct (dict_lookup dist y) as [v|] eqn:Hy.
    2:{ assert (dict_get dist y = Raise KeyError) as ->; [|reflexivity].
        unfold dict_get. by rewrite Hy. }
    rewrite (proj2 (dict_get_Ok _ _ _) Hy), !bind_Ok_l.
    apply dict_lookup_Some_keys in Hy as Hy'.
    apply elem_of_cons in Hx as [->|Hx]; [done|].
    apply IH; [done|]. by rewrite keys_dict_set_elem.
Qed.

Lemma transition_model_unfold (c : corpus) p (L : gset string) d :
  NoDup (keys c) → dict_lookup c p = Some L → L ≠ ∅ →
  transition_model c p d
  = for_each (λ dist nowPage,
                v ← dict_get dist nowPage ;
                Ok (dict_set dist nowPage (v + d / Qc_of_nat (set_len L))))
             (set_iter L)
             (map (λ k, (k, (1 - d) / Qc_of_nat (length c))) (keys c)).
Proof.
  intros Hnd Hp HL. unfold transition_model.
  rewrite (proj2 (dict_get_Ok _ _ _) Hp), bind_Ok_l.
  rewrite (pydiv_Ok (1 - d)), bind_Ok_l
    by (apply Qc_of_nat_ne_0; destruct c; [done|simpl; lia]).
  rewrite pydiv_Ok, bind_Ok_l by (by apply Qc_of_nat_ne_0, set_len_ne_0).
  by rewrite fill_dict_nil.
Qed.


(** X1.  For a page with links the transition model gives every page of the
    corpus [(1-d)/N], plus [d/|L|] when the page is one of the links. *)
Theorem transition_model_values (c : corpus) (p : string) (L : gset string) (d : Qc) :
  valid_corpus c → dict_lookup c p = Some L → L ≠ ∅ →
  ∃ m, transition_model c p d = Ok m
       ∧ keys m = keys c
       ∧ ∀ q, q ∈ keys c →
              dict_lookup m q
              = Some ((1 - d) / Qc_of_nat (length c)
                      + (if decide (q ∈ L) then d / Qc_of_nat (size L) else 0)).
Proof.
  intros Hv Hp HL.
  destruct (transition_model_linked c p L d Hv Hp HL) as (m & Hm & Hk & _).
  exists m. split_and!; [done..|]. intros q Hq.
  destruct (valid_corpus_links c p L Hv Hp) as [_ Hsub].
  rewrite (transition_model_unfold c p L) in Hm by (done || apply Hv).
  destruct (link_loop_lookup (d / Qc_of_nat (set_len L)) (set_iter L)
              (map (λ k, (k, (1 - d) / Qc_of_nat (length c))) (keys c)))
    as (m' & Hm' & Hl).
  { apply NoDup_elements. }
  { intros x Hx. rewrite keys_const. by apply Hsub, elem_of_elements. }
  rewrite Hm in Hm'. injection Hm' as <-.
  rewrite Hl, dict_lookup_const by done. cbn. do 2 f_equal.
  unfold set_iter, set_len.
  destruct (decide (q ∈ L)) as [Hin|Hin].
  - by rewrite decide_True by (by apply elem_of_elements).
  - rewrite decide_False; [done|]. by rewrite elem_of_elements.
Qed.

Lemma transition_model_values_witness :
  ∃ m, transition_model corpus_abc "A" DAMPING = Ok m
       ∧ keys m = keys corpus_abc
       ∧ ∀ q, q ∈ keys corpus_abc →
              dict_lookup m q
              = Some ((1 - DAMPING) / Qc_of_nat (length corpus_abc)
                      + (if decide (q ∈ ({["B"%string]} : gset string))
                         then DAMPING / Qc_of_nat (size ({["B"%string]} : gset string))
                         else 0)).
Proof.
  apply transition_model_values; [compute_done|reflexivity|done].
Defined.



(** X3.  The transition model raises [KeyError] when the page is not a key
    of the corpus, and when one of its links is not a key. *)
Theorem transition_model_key_error (c : corpus) (p : string) (d : Qc) :
  NoDup (keys c) →
  (dict_lookup c p = None
   ∨ ∃ L q, dict_lookup c p = Some L ∧ q ∈ L ∧ q ∉ keys c) →
  transition_model c p d = Raise KeyError.
Proof.
  intros Hnd [Hp|(L & q & Hp & Hq & Hout)].
  - unfold transition_model, dict_get. by rewrite Hp.
  - rewrite (transition_model_unfold c p L) by (done || set_solver).
    apply (link_loop_KeyError _ _ _ q).
    + by apply elem_of_elements.
    + by rewrite keys_const.
Qed.

Lemma transition_model_key_error_witness :
  transition_model [("A", {["Z"]})]%string "A" DAMPING = Raise KeyError.
Proof.
  apply transition_model_key_error; [compute_done|].
  right. exists {["Z"%string]}, "Z"%string. split_and!; [reflexivity|set_solver|compute_done].
Defined.

(** ** The sampling estimator at its edges *)

(** X4.  On the empty corpus the sampler raises [IndexError] (there is no
    page for [random.choice]), the iterative estimator raises
    [ZeroDivisionError] (it divides by the number of pages) and the
    transition model raises [KeyError]. *)
Theorem empty_corpus_raises (g : rng) (d : Qc) (n : Z) (fuel : nat) (p : string) :
  sample_pagerank g [] d n = Raise IndexError
  ∧ iterate_pagerank fuel [] d = Some (Raise ZeroDivisionError)
  ∧ transition_model [] p d = Raise KeyError.
Proof. done. Qed.

(** With [n <= 1] the walk has no step. *)
Lemma sample_counts_no_walk g (c : corpus) d (n : Z) :
  valid_corpus c → c ≠ [] → (n ≤ 1)%Z →
  ∃ p cd, random_choice g 0 (keys c) = Ok p ∧ p ∈ keys c
          ∧ sample_counts g c d n = Ok cd ∧ keys cd = keys c
          ∧ ∀ q, q ∈ keys c →
                 dict_lookup cd q = Some (if decide (q = p) then 1 else 0)%Z.
Proof.
  intros Hv Hne Hn. unfold sample_counts. rewrite fill_dict_nil by apply Hv.
  destruct (random_choice_Ok g 0 (keys c)) as (p & Hp & Hc).
  { by destruct c. }
  destruct (dict_incr_Ok (map (λ k, (k, 0%Z)) (keys c)) p)
    as (cd & Hcd & Hk & _ & _ & Hl); [by rewrite keys_const|].
  exists p, cd. rewrite Hp, bind_Ok_l, Hcd, bind_Ok_l.
  replace (Z.to_nat (n - 1)) with O by lia. cbn [sample_loop].
  rewrite keys_const in Hk. split_and!; [done..|].
  intros q Hq. rewrite Hl. case_decide; subst; by rewrite dict_lookup_const.
Qed.

(** X5.  With the sample count [0] the sampler raises [ZeroDivisionError]:
    the start page is counted, then the count is divided by [n = 0]. *)
Theorem sample_pagerank_zero_samples (g : rng) (c : corpus) (d : Qc) :
  valid_corpus c → c ≠ [] → sample_pagerank g c d 0 = Raise ZeroDivisionError.
Proof.
  intros Hv Hne.
  destruct (sample_counts_no_walk g c d 0 Hv Hne ltac:(lia))
    as (p & cd & _ & _ & Hcd & Hk & _).
  unfold sample_pagerank. rewrite Hcd, bind_Ok_l.
  destruct cd as [|[k v] cd]; [by destruct c|].
  cbn [for_each]. by rewrite Z2Qc_inj_0, pydiv_0.
Qed.

Lemma sample_pagerank_zero_samples_witness :
  sample_pagerank (λ _, 0%Z) corpus_dead_end DAMPING 0 = Raise ZeroDivisionError.
Proof. apply sample_pagerank_zero_samples; [compute_done|done]. Defined.

(** X6.  A negative sample count is not rejected: no step is walked, the
    start page gets the negative estimate [1/n] and every other page zero. *)
Theorem sample_pagerank_negative_samples (g : rng) (c : corpus) (d : Qc) (n : Z) :
  valid_corpus c → c ≠ [] → (n < 0)%Z →
  ∃ p m,
    random_choice g 0 (keys c) = Ok p
    ∧ sample_pagerank g c d n = Ok m
    ∧ keys m = keys c
    ∧ dict_lookup m p = Some (1 / Qc_of_Z n)
    ∧ 1 / Qc_of_Z n < 0
    ∧ ∀ q, q ∈ keys c → q ≠ p → dict_lookup m q = Some 0.
Proof.
  intros Hv Hne Hn.
  destruct (sample_counts_no_walk g c d n Hv Hne ltac:(lia))
    as (p & cd & Hp & Hin & Hcd & Hk & Hl).
  exists p, (map (λ e, (e.1, Qc_of_Z e.2 / Qc_of_Z n)) cd).
  assert (Qc_of_Z n < 0) as Hn0 by (rewrite <-Z2Qc_inj_0, <-Z2Qc_inj_lt; lia).
  split_and!; [done| | | | |].
  - apply sample_pagerank_normalise; [done|lia|done].
  - by rewrite (keys_fmap_values (λ v, Qc_of_Z v / Qc_of_Z n)).
  - rewrite (dict_lookup_fmap_values (λ v, Qc_of_Z v / Qc_of_Z n)), Hl by done.
    rewrite decide_True by done. cbn [fmap option_fmap option_map].
    by rewrite Z2Qc_inj_1.
  - apply (Qcmult_lt_mono_pos_r _ _ (- Qc_of_Z n)); [qc_lra|].
    replace (1 / Qc_of_Z n * - Qc_of_Z n) with (- (1)) by (field; qc_lra).
    replace (0 * - Qc_of_Z n) with (Q2Qc 0) by ring. done.
  - intros q Hq Hne'.
    rewrite (dict_lookup_fmap_values (λ v, Qc_of_Z v / Qc_of_Z n)), Hl by done.
    rewrite decide_False by done. cbn [fmap option_fmap option_map].
    f_equal. rewrite Z2Qc_inj_0. unfold Qcdiv. ring.
Qed.

Lemma sample_pagerank_negative_samples_witness :
  ∃ p m,
    random_choice (λ _, 0%Z) 0 (keys corpus_abc) = Ok p
    ∧ sample_pagerank (λ _, 0%Z) corpus_abc DAMPING (-4) = Ok m
    ∧ keys m = keys corpus_abc
    ∧ dict_lookup m p = Some (1 / Qc_of_Z (-4))
    ∧ 1 / Qc_of_Z (-4) < 0
    ∧ ∀ q, q ∈ keys corpus_abc → q ≠ p → dict_lookup m q = Some 0.
Proof.
  apply sample_pagerank_negative_samples; [compute_done|done|lia].
Defined.

(** ** The sampling estimator on well-formed input *)

(** X7.  On a non-empty corpus without dead ends, with a damping factor in
    (0,1) and with [n >= 1] the sampler returns, whatever the generator draws:
    the visit counters sum to [n], every estimate is the quotient of a counter
    by [n], and in exact arithmetic the estimates sum to one (the program
    rounds each quotient to binary64).  For a damping factor in (0,1) every
    weight the walk draws from is positive (X2), and so is the total that
    [random.choices] tests. *)
Theorem sample_pagerank_sums_to_one (g : rng) (c : corpus) (d : Qc) (n : Z) :
  valid_corpus c → c ≠ [] → no_dead_end c → valid_damping d → (1 ≤ n)%Z →
  ∃ cd m, sample_counts g c d n = Ok cd ∧ Zsum (values cd) = n
          ∧ sample_pagerank g c d n = Ok m
          ∧ m = map (λ e, (e.1, Qc_of_Z e.2 / Qc_of_Z n)) cd
          ∧ keys m = keys c ∧ Qcsum (values m) = 1.
Proof.
  intros Hv Hne Hnd _ Hn.
  destruct (sample_counts_Ok g c d n Hv Hne Hnd) as [cd Hcd].
  pose proof (sample_pagerank_normalise g c d n cd Hv ltac:(lia) Hcd) as Hm.
  destruct (sample_pagerank_inv g c d n _ Hv Hn Hm) as (Hk & _ & Hs).
  destruct (sample_counts_inv g c d n cd Hv Hcd) as (_ & Hz & _).
  eexists cd, _. split_and!; [done|lia|done..].
Qed.

Lemma sample_pagerank_sums_to_one_witness :
  ∃ cd m, sample_counts (λ k, Z.of_nat k) corpus_abc DAMPING 5 = Ok cd
          ∧ Zsum (values cd) = 5%Z
          ∧ sample_pagerank (λ k, Z.of_nat k) corpus_abc DAMPING 5 = Ok m
          ∧ m = map (λ e, (e.1, Qc_of_Z e.2 / Qc_of_Z 5)) cd
          ∧ keys m = keys corpus_abc ∧ Qcsum (values m) = 1.
Proof.
  apply sample_pagerank_sums_to_one;
    [compute_done|done|compute_done|compute_done|lia].
Defined.

Lemma Zsum_elem_le (l : list Z) k :
  Forall (λ x, 0 ≤ x)%Z l → k ∈ l → (k ≤ Zsum l)%Z.
Proof.
  induction 1 as [|x l Hx Hl IH]; [by intros ?%elem_of_nil|].
  assert (0 ≤ Zsum l)%Z as Hs.
  { clear IH. induction Hl; simpl; [done|]. lia. }
  cbn [Zsum foldr]. fold (Zsum l).
  intros [->|Hv%IH]%elem_of_cons; lia.
Qed.

(** X8.  Every estimate the sampler returns is a visit count over [n]:
    [k/n] for an integer [0 <= k <= n], hence a value between 0 and 1. *)
Theorem sample_pagerank_estimates (g : rng) (c : corpus) (d : Qc) (n : Z)
    (m : dict Qc) (v : Qc) :
  valid_corpus c → (1 ≤ n)%Z → sample_pagerank g c d n = Ok m → v ∈ values m →
  ∃ k : Z, (0 ≤ k ≤ n)%Z ∧ v = Qc_of_Z k / Qc_of_Z n ∧ 0 ≤ v ∧ v ≤ 1.
Proof.
  intros Hv Hn Hm Hin.
  destruct (sample_counts g c d n) as [cd|e] eqn:Hcd;
    [|by unfold sample_pagerank in Hm; rewrite Hcd in Hm].
  rewrite (sample_pagerank_normalise g c d n cd) in Hm by (done || lia).
  injection Hm as <-.
  apply sample_counts_inv in Hcd as (Hk & Hs & Hp); [|done].
  rewrite (values_fmap_values (λ v, Qc_of_Z v / Qc_of_Z n)) in Hin.
  apply list_elem_of_fmap in Hin as (k & -> & Hkin).
  pose proof (Zsum_elem_le _ _ Hp Hkin) as Hle.
  rewrite Forall_forall in Hp. specialize (Hp k Hkin). cbn beta in Hp.
  assert (0 < Qc_of_Z n) as Hn0 by (rewrite <-Z2Qc_inj_0, <-Z2Qc_inj_lt; lia).
  exists k. split_and!; [lia|lia|done| |].
  - apply Qcmult_nonneg_nonneg; [|by apply Qclt_le_weak, Qcinv_pos].
    rewrite <-Z2Qc_inj_0, <-Z2Qc_inj_le. done.
  - apply (Qcmult_le_mono_pos_r _ _ (Qc_of_Z n)); [done|].
    replace (Qc_of_Z k / Qc_of_Z n * Qc_of_Z n) with (Qc_of_Z k)
      by (field; by apply Qclt_not_eq in Hn0).
    rewrite Qcmult_1_l, <-Z2Qc_inj_le. lia.
Qed.

Lemma sample_pagerank_estimates_witness :
  ∃ k : Z, (0 ≤ k ≤ 1)%Z ∧ Q2Qc 1 = Qc_of_Z k / Qc_of_Z 1 ∧ 0 ≤ Q2Qc 1 ∧ Q2Qc 1 ≤ 1.
Proof.
  apply (sample_pagerank_estimates (λ _, 0%Z) corpus_abc DAMPING 1
           [("A", Q2Qc 1); ("B", Q2Qc 0); ("C", Q2Qc 0)]%string);
    [compute_done|lia|qc_eval|left].
Defined.

Lemma sample_loop_Raise g (c : corpus) d steps pos chosen (cd : dict Z) e :
  valid_corpus c → keys cd = keys c → chosen ∈ keys c →
  sample_loop g c d steps pos chosen cd = Raise e →
  e = ZeroDivisionError ∧ ∃ p, dict_lookup c p = Some ∅.
Proof.
  intros Hv. revert pos chosen cd.
  induction steps as [|steps IH]; intros pos chosen cd Hk Hc; [done|].
  cbn [sample_loop].
  destruct (proj1 (dict_lookup_is_Some c chosen) Hc) as [L HL].
  destruct (decide (L = ∅)) as [->|HLne].
  - rewrite transition_model_dead_end by done. intros [= <-]. eauto.
  - destruct (transition_model_linked c chosen L d Hv HL HLne)
      as (m & -> & Hkm & Hsum & _). rewrite bind_Ok_l.
    destruct (random_choices_Ok g pos (keys m) (values m)) as (chosen' & -> & Hc').
    { by rewrite length_keys, length_values. }
    { by rewrite Hsum. }
    rewrite bind_Ok_l.
    destruct (dict_incr_Ok cd chosen') as (cd1 & -> & Hk1 & _); [congruence|].
    rewrite bind_Ok_l. apply IH; congruence.
Qed.

(** X9.  On a non-empty valid corpus, with a damping factor in (0,1) and
    with [n >= 1], the only exception the sampler can raise is
    [ZeroDivisionError], and it raises it only when the corpus has a page
    without links.  For a damping factor in (0,1) every weight the walk
    draws from is positive (X2), and so is the total that [random.choices]
    tests. *)
Theorem sample_pagerank_only_dead_end_raises
    (g : rng) (c : corpus) (d : Qc) (n : Z) (e : exn) :
  valid_corpus c → c ≠ [] → valid_damping d → (1 ≤ n)%Z →
  sample_pagerank g c d n = Raise e →
  e = ZeroDivisionError ∧ ∃ p, dict_lookup c p = Some ∅.
Proof.
  intros Hv Hne _ Hn Hr.
  destruct (sample_counts g c d n) as [cd|e'] eqn:Hcd.
  - rewrite (sample_pagerank_normalise g c d n cd) in Hr by (done || lia). done.
  - unfold sample_pagerank in Hr. rewrite Hcd in Hr. injection Hr as ->.
    unfold sample_counts in Hcd. rewrite fill_dict_nil in Hcd by apply Hv.
    destruct (random_choice_Ok g 0 (keys c)) as (p & Hp & Hc).
    { by destruct c. }
    rewrite Hp, bind_Ok_l in Hcd.
    destruct (dict_incr_Ok (map (λ k, (k, 0%Z)) (keys c)) p)
      as (cd1 & H1 & Hk1 & _); [by rewrite keys_const|].
    rewrite H1, bind_Ok_l in Hcd. rewrite keys_const in Hk1.
    by eapply sample_loop_Raise.
Qed.

Lemma sample_pagerank_only_dead_end_raises_witness :
  ZeroDivisionError = ZeroDivisionError
  ∧ ∃ p, dict_lookup corpus_single p = Some ∅.
Proof.
  apply (sample_pagerank_only_dead_end_raises (λ _, 0%Z) corpus_single DAMPING 2);
    [compute_done|done|compute_done|lia|reflexivity].
Defined.

(** ** The iterative estimator: what it returns *)

(** X10.  On a non-empty corpus the iterative estimator never raises,
    whatever the damping factor and even when the graph has links to pages
    outside the corpus or self-loops: a result is a mapping over the keys of
    the corpus. *)
Theorem iterate_pagerank_never_raises (fuel : nat) (c : corpus) (d : Qc)
    (r : result (dict Qc)) :
  NoDup (keys c) → c ≠ [] → iterate_pagerank fuel c d = Some r →
  ∃ m, r = Ok m ∧ keys m = keys c.
Proof.
  intros Hnd Hne Hr. rewrite iterate_pagerank_init in Hr by done.
  apply rank_loop_inv in Hr as (pd0 & m & -> & Hk0 & Hpass);
    [|done|by rewrite keys_const].
  exists m. split; [done|].
  by destruct (last_pass_small c d pd0 m Hnd Hk0 Hpass) as (? & _).
Qed.

Lemma iterate_pagerank_never_raises_witness :
  ∃ m, Ok [("A"%string, Q2Qc (3 # 20))] = Ok m
       ∧ keys m = keys ([("A", {["Z"]})]%string : corpus).
Proof.
  apply (iterate_pagerank_never_raises 3 _ DAMPING); [compute_done|done|qc_eval].
Defined.

Lemma wsum_scale (c : corpus) w a (g : string → Qc) :
  wsum c w (λ k, a * g k) = a * wsum c w g.
Proof.
  induction c as [|[q L] c IH]; [rewrite !wsum_nil; ring|].
  rewrite !wsum_cons, IH. ring.
Qed.

Lemma wsum_share_0 (c : corpus) p g :
  (∀ q L, (q, L) ∈ c → p ∉ L) → wsum c (share p) g = 0.
Proof.
  intros Hno. rewrite (wsum_ext_w c (share p) (λ _, 0)); [apply wsum_const_0|].
  intros [q L] He. apply share_not_elem. by eapply Hno.
Qed.

Lemma sweep_fixed (c : corpus) d rows (ρ : string → Qc) :
  (∀ p, p ∈ rows → base_rank c d + inflow c d ρ p = ρ p) →
  ∀ k, sweep c d rows ρ k = ρ k.
Proof.
  induction rows as [|p rows IH]; intros Hfix k; [done|]. cbn [sweep].
  rewrite (sweep_ext c d rows _ ρ).
  - apply IH. intros; apply Hfix; by right.
  - intros k'. unfold fupd. case_decide as Hk; [|done].
    subst. apply Hfix. left.
Qed.

Lemma rank_of_uniform (c : corpus) k :
  k ∈ keys c → rank_of (uniform c) k = 1 / Qc_of_nat (length c).
Proof. intros Hk. unfold rank_of, uniform. by rewrite dict_lookup_const. Qed.

Lemma rank_of_eq_dict (c : corpus) (m1 m2 : dict Qc) :
  NoDup (keys c) → keys m1 = keys c → keys m2 = keys c →
  (∀ k, k ∈ keys c → rank_of m1 k = rank_of m2 k) → m1 = m2.
Proof.
  intros Hnd Hk1 Hk2 Hr. apply dict_ext; [congruence|by rewrite Hk1|].
  intros k Hk. rewrite Hk1 in Hk. specialize (Hr k Hk). unfold rank_of in Hr.
  destruct (proj1 (dict_lookup_is_Some m1 k)) as [v1 H1]; [by rewrite Hk1|].
  destruct (proj1 (dict_lookup_is_Some m2 k)) as [v2 H2]; [by rewrite Hk2|].
  rewrite H1, H2 in *. by f_equal.
Qed.

(** X11.  In exact arithmetic and for a damping factor in [0,1]: when the
    damping factor is zero, or when the shares [1/|L_q|] that flow into every
    page add up to one (as in a cycle), the uniform ranks [1/N] solve the rank
    equation, the first pass changes nothing and the estimator returns the
    uniform ranks.  The statement is one of exact arithmetic: in binary64 a
    rank of the first pass can differ from [1/N] in the last place (see
    [binary64_first_pass_rounds]). *)
Theorem iterate_pagerank_uniform (c : corpus) (d : Qc) :
  valid_corpus c → c ≠ [] → 0 ≤ d → d ≤ 1 →
  (∀ p, p ∈ keys c → d * in_share c p = d) →
  iterate_pagerank 1 c d = Some (Ok (uniform c)).
Proof.
  intros [Hnd _] Hne _ _ Hbal. rewrite iterate_pagerank_init by done.
  fold (uniform c). cbn [rank_loop].
  assert (Hku : keys (uniform c) = keys c) by apply keys_const.
  destruct (rank_pass_Ok c d (uniform c) Hnd Hku) as (pd' & flag & -> & Hk' & Hrk & Hfl).
  assert (Hfix : ∀ k, rank_of pd' k = rank_of (uniform c) k).
  { intros k. rewrite Hrk. apply sweep_fixed. intros p Hp.
    rewrite rank_of_uniform by done. unfold inflow.
    rewrite (wsum_ext c _ _ (λ k, 1 / Qc_of_nat (length c) * 1))
      by (intros; rewrite rank_of_uniform by done; ring).
    rewrite wsum_scale. fold (in_share c p).
    replace (d * (1 / Qc_of_nat (length c) * in_share c p))
      with (1 / Qc_of_nat (length c) * (d * in_share c p)) by ring.
    rewrite Hbal by done. unfold base_rank. field.
    apply Qc_of_nat_ne_0. by destruct c. }
  destruct flag.
  - destruct (proj1 Hfl eq_refl) as (p & Hp & Hgt). rewrite Hfix in Hgt.
    replace (rank_of (uniform c) p - rank_of (uniform c) p) with (Q2Qc 0) in Hgt by ring.
    by vm_compute in Hgt.
  - do 2 f_equal. apply (rank_of_eq_dict c); auto.
Qed.

Lemma iterate_pagerank_uniform_witness :
  iterate_pagerank 1 corpus_cycle DAMPING = Some (Ok (uniform corpus_cycle)).
Proof.
  apply iterate_pagerank_uniform; [compute_done|done|done|done|].
  intros p Hp. change (keys corpus_cycle) with ["A"; "B"]%string in Hp.
  apply elem_of_cons in Hp as [->|Hp]; [qc_eval|].
  apply elem_of_cons in Hp as [->|Hp]; [qc_eval|].
  by apply elem_of_nil in Hp.
Defined.

(** On a cycle of three pages with the damping factor [0.001] the first
    pass of the binary64 loop is the last, and it returns
    [0.33333333333333337] where [1/3] is [0.3333333333333333]. *)
Example binary64_first_pass_rounds :
  ∃ m, Binary64.iterate_pagerank 1
         [("A", {["B"]}); ("B", {["C"]}); ("C", {["A"]})]%string
         0x1.0624dd2f1a9fcp-10%float = Some (Ok m)
       ∧ float_rank_of m "A" = 0x1.5555555555556p-2%float
       ∧ float_rank_of m "A" ≠ (1 / 3)%float.
Proof.
  eexists. split_and!.
  - vm_compute. reflexivity.
  - vm_compute. reflexivity.
  - vm_compute. discriminate.
Qed.

Lemma rank_pass_in_place_eq (c : corpus) d (pd pd' : dict Qc) flag done p todo :
  NoDup (keys c) → keys pd = keys c → rank_pass c d pd = Ok (pd', flag) →
  keys c = done ++ p :: todo →
  rank_of pd' p
  = base_rank c d
    + inflow c d (λ k, if decide (k ∈ done) then rank_of pd' k else rank_of pd k) p.
Proof.
  intros Hnd Hk Hpass Hsplit.
  destruct (rank_pass_Ok c d pd Hnd Hk) as (pd'' & flag' & Hpass' & _ & Hrk & _).
  rewrite Hpass in Hpass'. injection Hpass' as <- <-.
  rewrite Hrk, Hsplit. rewrite sweep_in_place by (by rewrite <-Hsplit).
  f_equal. apply inflow_ext. intros k _.
  case_decide; [|done]. by rewrite Hrk, Hsplit.
Qed.

Lemma rank_loop_inv_nonneg fuel (c : corpus) d (pd : dict Qc) r :
  NoDup (keys c) → keys pd = keys c → 0 ≤ d → d ≤ 1 →
  (∀ k, 0 ≤ rank_of pd k) → rank_loop fuel c d pd = Some r →
  ∃ pd0 m, r = Ok m ∧ keys pd0 = keys c ∧ (∀ k, 0 ≤ rank_of pd0 k)
           ∧ rank_pass c d pd0 = Ok (m, false).
Proof.
  intros Hnd Hk Hd0 Hd1. revert pd Hk.
  induction fuel as [|fuel IH]; intros pd Hk Hpos; [done|]. cbn [rank_loop].
  destruct (rank_pass_Ok c d pd Hnd Hk) as (pd' & flag & Hpass & Hk' & _).
  rewrite Hpass.
  pose proof (rank_pass_nonneg c d pd pd' flag Hnd Hk Hd0 Hd1 Hpos Hpass) as Hpos'.
  destruct flag; [by apply IH|]. intros [= <-]. by exists pd, pd'.
Qed.

(** X12.  No returned rank is below [(1-d)/N]: a rank starts from
    [(1-d)/N] and only non-negative terms are added. *)
Theorem iterate_pagerank_lower_bound (fuel : nat) (c : corpus) (d : Qc)
    (m : dict Qc) (p : string) (v : Qc) :
  valid_corpus c → 0 ≤ d → d ≤ 1 →
  iterate_pagerank fuel c d = Some (Ok m) → dict_lookup m p = Some v →
  (1 - d) / Qc_of_nat (length c) ≤ v.
Proof.
  intros [Hnd _] Hd0 Hd1 Hm Hp.
  destruct (decide (c = [])) as [->|Hne]; [done|].
  rewrite iterate_pagerank_init in Hm by done.
  apply rank_loop_inv_nonneg in Hm as (pd0 & m' & [= <-] & Hk0 & Hpos0 & Hpass);
    [|done|by rewrite keys_const|done..|].
  2:{ intros k. apply rank_of_const. apply Qcmult_nonneg_nonneg; [done|].
      apply Qclt_le_weak, Qcinv_pos, Qc_of_nat_pos. destruct c; [done|simpl; lia]. }
  destruct (last_pass_small c d pd0 m Hnd Hk0 Hpass) as (Hk & _ & _).
  pose proof (rank_pass_nonneg c d pd0 m false Hnd Hk0 Hd0 Hd1 Hpos0 Hpass) as Hposm.
  apply dict_lookup_Some_keys in Hp as Hin. rewrite Hk in Hin.
  apply list_elem_of_split in Hin as (done & todo & Hsplit).
  pose proof (rank_pass_in_place_eq c d pd0 m false done p todo Hnd Hk0 Hpass Hsplit)
    as Heq.
  unfold rank_of at 1 in Heq. rewrite Hp in Heq. cbn [from_option id] in Heq.
  rewrite Heq.
  fold (base_rank c d).
  assert (0 ≤ inflow c d (λ k, if decide (k ∈ done)
                               then rank_of m k else rank_of pd0 k) p) as Hin.
  { apply Qcmult_nonneg_nonneg; [done|].
    apply wsum_nonneg; [apply share_nonneg|]. intros k. by case_decide. }
  generalize dependent (inflow c d (λ k, if decide (k ∈ done)
                                         then rank_of m k else rank_of pd0 k) p).
  intros. qc_lra.
Qed.

Lemma iterate_pagerank_lower_bound_witness :
  (1 - DAMPING) / Qc_of_nat (length corpus_dead_end) ≤ Q2Qc (3 # 40).
Proof.
  apply (iterate_pagerank_lower_bound 2 corpus_dead_end DAMPING
           [("A", Q2Qc (3 # 40)); ("B", Q2Qc (111 # 800))]%string "A"%string);
    [compute_done|done|done|qc_eval|reflexivity].
Defined.

(** X13.  In exact arithmetic and for a damping factor in [0,1], the
    returned ranks solve the rank equation of the code up to the threshold:
    for every page the rank differs from [(1-d)/N + d * Σ rank(q)/|L_q|] (over
    the pages [q] that link to it) by at most [d * minChange * Σ 1/|L_q|]. *)
Theorem iterate_pagerank_near_fixed_point (fuel : nat) (c : corpus) (d : Qc)
    (m : dict Qc) (p : string) :
  valid_corpus c → 0 ≤ d → d ≤ 1 →
  iterate_pagerank fuel c d = Some (Ok m) → p ∈ keys c →
  Qcabs.Qcabs (rank_of m p - (base_rank c d + inflow c d (rank_of m) p))
  ≤ d * minChange * in_share c p.
Proof.
  intros [Hnd _] Hd0 _ Hm Hin.
  assert (c ≠ []) as Hne by (intros ->; by apply elem_of_nil in Hin).
  rewrite iterate_pagerank_init in Hm by done.
  apply rank_loop_inv in Hm as (pd0 & m' & [= <-] & Hk0 & Hpass);
    [|done|by rewrite keys_const].
  destruct (last_pass_small c d pd0 m Hnd Hk0 Hpass) as (Hk & _ & Hsmall).
  apply list_elem_of_split in Hin as (done & todo & Hsplit).
  rewrite (rank_pass_in_place_eq c d pd0 m false done p todo Hnd Hk0 Hpass Hsplit).
  set (mix := λ k, if decide (k ∈ done) then rank_of m k else rank_of pd0 k).
  unfold inflow.
  replace (base_rank c d + d * wsum c (share p) mix
           - (base_rank c d + d * wsum c (share p) (rank_of m)))
    with (d * wsum c (share p) (λ k, mix k - rank_of m k))
    by (rewrite wsum_minus; ring).
  rewrite Qcabs.Qcabs_Qcmult, (Qcabs.Qcabs_pos d) by done.
  rewrite <-Qcmult_assoc. apply Qcmult_le_mono_nonneg_l; [done|].
  eapply Qcle_trans; [apply wsum_abs, share_nonneg|].
  unfold in_share. rewrite <-wsum_scale.
  apply wsum_mono; [apply share_nonneg|]. intros k Hkc. unfold mix.
  rewrite Qcmult_1_r. case_decide.
  - replace (rank_of m k - rank_of m k) with (Q2Qc 0) by ring.
    rewrite Qcabs.Qcabs_pos by done. by apply Qclt_le_weak.
  - rewrite Qcabs.Qcabs_Qcminus. by apply Hsmall.
Qed.

(** Page A of B -> A, C -> A, A -> B has two in-links; the mapping is the
    one returned after fourteen passes. *)
Lemma iterate_pagerank_near_fixed_point_witness :
  ∃ m, iterate_pagerank 14 corpus_abc DAMPING = Some (Ok m)
       ∧ in_share corpus_abc "A" = Q2Qc 2
       ∧ Qcabs.Qcabs (rank_of m "A"
                      - (base_rank corpus_abc DAMPING
                         + inflow corpus_abc DAMPING (rank_of m) "A"))
         ≤ DAMPING * minChange * in_share corpus_abc "A".
Proof.
  eexists. split_and!.
  - vm_compute. reflexivity.
  - qc_eval.
  - apply (iterate_pagerank_near_fixed_point 14 corpus_abc DAMPING);
      [compute_done|done|done|vm_compute; reflexivity|compute_done].
Defined.

(** X14.  A page that no page links to is returned with the rank
    [(1-d)/N] exactly. *)
Theorem iterate_pagerank_no_inlink (fuel : nat) (c : corpus) (d : Qc)
    (m : dict Qc) (p : string) :
  valid_corpus c → iterate_pagerank fuel c d = Some (Ok m) →
  p ∈ keys c → (∀ q L, (q, L) ∈ c → p ∉ L) →
  dict_lookup m p = Some ((1 - d) / Qc_of_nat (length c)).
Proof.
  intros [Hnd _] Hm Hin Hno.
  assert (c ≠ []) as Hne by (intros ->; by apply elem_of_nil in Hin).
  rewrite iterate_pagerank_init in Hm by done.
  apply rank_loop_inv in Hm as (pd0 & m' & [= <-] & Hk0 & Hpass);
    [|done|by rewrite keys_const].
  destruct (last_pass_small c d pd0 m Hnd Hk0 Hpass) as (Hk & _ & _).
  destruct (proj1 (dict_lookup_is_Some m p)) as [v Hv]; [by rewrite Hk|].
  rewrite Hv. f_equal.
  apply list_elem_of_split in Hin as (done & todo & Hsplit).
  pose proof (rank_pass_in_place_eq c d pd0 m false done p todo Hnd Hk0 Hpass Hsplit)
    as Heq.
  unfold rank_of at 1 in Heq. rewrite Hv in Heq. cbn [from_option id] in Heq.
  rewrite Heq. unfold inflow. rewrite wsum_share_0 by done.
  unfold base_rank. ring.
Qed.

Lemma iterate_pagerank_no_inlink_witness :
  dict_lookup [("A", Q2Qc (3 # 40)); ("B", Q2Qc (111 # 800))]%string "A"
  = Some ((1 - DAMPING) / Qc_of_nat (length corpus_dead_end)).
Proof.
  apply (iterate_pagerank_no_inlink 2 corpus_dead_end DAMPING);
    [compute_done|qc_eval|compute_done|].
  intros q L Hin. change corpus_dead_end with [("A"%string, ({["B"%string]} : gset string)); ("B"%string, ∅)] in Hin.
  apply elem_of_cons in Hin as [[= -> ->]|Hin]; [set_solver|].
  apply elem_of_cons in Hin as [[= -> ->]|Hin]; [set_solver|].
  by apply elem_of_nil in Hin.
Defined.

(** ** The iterative estimator in binary64: what it returns *)

(** X20.  In binary64, as the program computes, and for every damping factor
    (also an infinite one or a [nan]): on a non-empty corpus the iterative
    estimator raises nothing; a mapping it returns has the keys of the
    corpus, and it is the result of a pass in which the test
    [abs(new_rank - probDict[page]) > minChange] of the source failed for
    every page. *)
Theorem binary64_iterate_pagerank_result (fuel : nat) (c : corpus) (d : float)
    (r : result (dict float)) :
  NoDup (keys c) → c ≠ [] → Binary64.iterate_pagerank fuel c d = Some r →
  ∃ pd0 m,
    r = Ok m ∧ keys m = keys c ∧ keys pd0 = keys c
    ∧ Binary64.rank_pass c d pd0 = Ok (m, false)
    ∧ ∀ p, p ∈ keys c →
           float_moved (float_rank_of m p) (float_rank_of pd0 p) = false.
Proof.
  intros Hnd Hne Hr. rewrite binary64_iterate_pagerank_init in Hr by done.
  apply binary64_rank_loop_inv in Hr as (pd0 & m & -> & Hk0 & Hkm & Hpass);
    [|done|by rewrite keys_const].
  exists pd0, m. split_and!; [done..|].
  intros p Hp.
  destruct (binary64_rank_pass_Ok c d pd0 Hnd Hk0) as (pd' & flag & Hpass' & _ & Hfl).
  rewrite Hpass in Hpass'. injection Hpass' as <- <-.
  destruct (float_moved _ _) eqn:Hm; [|done].
  symmetry. apply Hfl. by exists p.
Qed.

Lemma binary64_iterate_pagerank_result_witness :
  ∃ r, Binary64.iterate_pagerank 14 corpus_abc Binary64.DAMPING = Some r
       ∧ ∃ pd0 m,
           r = Ok m ∧ keys m = keys corpus_abc ∧ keys pd0 = keys corpus_abc
           ∧ Binary64.rank_pass corpus_abc Binary64.DAMPING pd0 = Ok (m, false)
           ∧ ∀ p, p ∈ keys corpus_abc →
                  float_moved (float_rank_of m p) (float_rank_of pd0 p) = false.
Proof.
  eexists. split; [vm_compute; reflexivity|].
  apply (binary64_iterate_pagerank_result 14 corpus_abc Binary64.DAMPING);
    [compute_done|done|vm_compute; reflexivity].
Defined.

(** ** [crawl] *)

(** One step of the first loop of [crawl]. *)
Lemma crawl_read_snoc (listing : list (string * list string)) f ls :
  crawl_read (listing ++ [(f, ls)])
  = if endswith f ".html"
    then dict_set (crawl_read listing) f (list_to_set ls ∖ {[f]})
    else crawl_read listing.
Proof. unfold crawl_read. by rewrite foldl_app. Qed.

Lemma crawl_read_NoDup (listing : list (string * list string)) :
  NoDup (keys (crawl_read listing)).
Proof.
  induction listing as [|[f ls] listing IH] using rev_ind; [constructor|].
  rewrite crawl_read_snoc. case_match; [|done]. by apply NoDup_keys_dict_set.
Qed.

Lemma crawl_read_keys (listing : list (string * list string)) k :
  k ∈ keys (crawl_read listing) ↔ endswith k ".html" ∧ k ∈ listing.*1.
Proof.
  induction listing as [|[f ls] listing IH] using rev_ind.
  - split; [by intros ?%elem_of_nil|by intros [_ ?%elem_of_nil]].
  - rewrite crawl_read_snoc, fmap_app, elem_of_app. cbn [fmap list_fmap fst].
    rewrite list_elem_of_singleton. destruct (endswith f ".html") eqn:Hf.
    + rewrite dict_lookup_is_Some, dict_lookup_set.
      destruct (decide (k = f)) as [->|Hk].
      * split; [|by eauto]. intros _. rewrite Hf. auto.
      * rewrite <-dict_lookup_is_Some, IH. split.
        -- intros [? ?]. auto.
        -- intros [? [?|?]]; [auto|done].
    + rewrite IH. split.
      * intros [? ?]. auto.
      * intros [Hk [?| ->]]; [done|]. by rewrite Hf in Hk.
Qed.

Lemma crawl_read_lookup (listing : list (string * list string)) k L :
  dict_lookup (crawl_read listing) k = Some L →
  ∃ ls, (k, ls) ∈ listing ∧ L = list_to_set ls ∖ {[k]}.
Proof.
  induction listing as [|[f ls] listing IH] using rev_ind; [done|].
  rewrite crawl_read_snoc. setoid_rewrite elem_of_app.
  destruct (endswith f ".html").
  - rewrite dict_lookup_set. destruct (decide (k = f)) as [->|Hk].
    + intros [= <-]. exists ls. split; [right; left|done].
    + intros (ls' & ? & ?)%IH. eauto.
  - intros (ls' & ? & ?)%IH. eauto.
Qed.

Lemma crawl_read_lookup_NoDup (listing : list (string * list string)) k ls :
  NoDup listing.*1 → (k, ls) ∈ listing → endswith k ".html" →
  dict_lookup (crawl_read listing) k = Some (list_to_set ls ∖ {[k]}).
Proof.
  induction listing as [|[f ls'] listing IH] using rev_ind;
    [by intros _ ?%elem_of_nil|].
  rewrite fmap_app, crawl_read_snoc. cbn [fmap list_fmap fst].
  intros (Hnd & Hdisj & _)%NoDup_app [Hin|[= -> ->]%list_elem_of_singleton]%elem_of_app Hk.
  - assert (k ≠ f) as Hne.
    { intros ->. apply (Hdisj f); [|left].
      apply list_elem_of_fmap. by exists (f, ls). }
    destruct (endswith f ".html"); [rewrite dict_lookup_set, decide_False by done|];
      by apply IH.
  - destruct (endswith f ".html"); [|done].
    by rewrite dict_lookup_set, decide_True.
Qed.

Lemma crawl_read_keys_NoDup (listing : list (string * list string)) :
  NoDup listing.*1 →
  keys (crawl_read listing) = filter (λ k, endswith k ".html") listing.*1.
Proof.
  induction listing as [|[f ls] listing IH] using rev_ind; [done|].
  rewrite fmap_app, crawl_read_snoc, filter_app. cbn [fmap list_fmap fst].
  intros (Hnd & Hdisj & _)%NoDup_app. rewrite <-IH by done.
  rewrite filter_cons, filter_nil. destruct (endswith f ".html") eqn:Hf.
  - rewrite decide_True by done.
    rewrite keys_dict_set_fresh; [unfold keys; by rewrite fmap_app|].
    rewrite crawl_read_keys. intros [_ Hin]. apply (Hdisj f); [done|left].
  - rewrite decide_False by (intros []). by rewrite app_nil_r.
Qed.

(** The second loop of [crawl]: no [KeyError], the keys stay, and every
    link set is cut down to the keys. *)
Lemma crawl_filter_rows (rows : list string) (pages : corpus) :
  NoDup rows → (∀ k, k ∈ rows → k ∈ keys pages) →
  ∃ pages',
    for_each (λ pages filename,
                links ← dict_get pages filename ;
                Ok (dict_set pages filename
                      (filter (λ link, link ∈ keys pages) links)))
             rows pages = Ok pages'
    ∧ keys pages' = keys pages
    ∧ ∀ k, dict_lookup pages' k
           = if decide (k ∈ rows)
             then filter (λ link, link ∈ keys pages) <$> dict_lookup pages k
             else dict_lookup pages k.
Proof.
  revert pages. induction rows as [|f rows IH]; intros pages Hnd Hsub.
  - exists pages. split_and!; [done..|]. intros k.
    by rewrite decide_False by apply not_elem_of_nil.
  - apply NoDup_cons in Hnd as [Hf Hnd].
    destruct (proj1 (dict_lookup_is_Some pages f)) as [L HL]; [apply Hsub; left|].
    set (pages1 := dict_set pages f (filter (λ link, link ∈ keys pages) L)).
    assert (Hk1 : keys pages1 = keys pages)
      by (apply keys_dict_set_elem, Hsub; left).
    destruct (IH pages1 Hnd) as (pages' & Hrun & Hk' & Hl).
    { intros k Hk. rewrite Hk1. apply Hsub. by right. }
    exists pages'. cbn [for_each].
    rewrite (proj2 (dict_get_Ok _ _ _) HL), bind_Ok_l. fold pages1.
    split_and!; [done|congruence|]. intros k. rewrite Hl, Hk1.
    unfold pages1. rewrite dict_lookup_set.
    destruct (decide (k = f)) as [->|Hkf].
    + rewrite decide_False by done. rewrite decide_True by left. by rewrite HL.
    + destruct (decide (k ∈ rows)).
      * by rewrite decide_True by (by right).
      * rewrite decide_False; [done|]. by intros [?|?]%elem_of_cons.
Qed.

Lemma crawl_Ok (listing : list (string * list string)) :
  ∃ c, crawl listing = Ok c
       ∧ keys c = keys (crawl_read listing)
       ∧ ∀ k, dict_lookup c k
              = filter (λ link, link ∈ keys c) <$> dict_lookup (crawl_read listing) k.
Proof.
  destruct (crawl_filter_rows (keys (crawl_read listing)) (crawl_read listing))
    as (c & Hc & Hk & Hl); [apply crawl_read_NoDup|done|].
  exists c. split_and!; [done..|]. intros k. rewrite Hl, Hk. case_decide as Hin; [done|].
  apply dict_lookup_None in Hin. by rewrite Hin.
Qed.

Lemma crawl_valid_corpus (listing : list (string * list string)) (c : corpus) :
  crawl listing = Ok c → valid_corpus c.
Proof.
  intros Hc. destruct (crawl_Ok listing) as (c' & Hc' & Hk & Hl).
  rewrite Hc in Hc'. injection Hc' as <-.
  assert (NoDup (keys c)) as Hnd by (rewrite Hk; apply crawl_read_NoDup).
  split; [done|]. apply Forall_forall. intros [k L] Hin.
  apply elem_of_dict_lookup in Hin; [|done]. rewrite Hl in Hin.
  destruct (dict_lookup (crawl_read listing) k) as [L0|] eqn:HL0; [|done].
  injection Hin as <-. apply crawl_read_lookup in HL0 as (ls & _ & ->).
  cbn [fst snd]. split.
  - rewrite elem_of_filter. intros [_ [_ Hk']%elem_of_difference].
    apply Hk'. by apply elem_of_singleton.
  - apply Forall_forall. intros q Hq%elem_of_elements.
    by apply elem_of_filter in Hq as [? _].
Qed.

(** X15.  [crawl] never raises, and the corpus it returns is well formed:
    the keys are distinct, no page links to itself and every link is a key. *)
Theorem crawl_returns_valid_corpus (listing : list (string * list string)) :
  ∃ c, crawl listing = Ok c ∧ valid_corpus c.
Proof.
  destruct (crawl_Ok listing) as (c & Hc & _). exists c. split; [done|].
  by eapply crawl_valid_corpus.
Qed.

(** X16.  The pages of the corpus are the file names of the directory that
    end in [.html], in the order of the listing; other files are left out. *)
Theorem crawl_keys (listing : list (string * list string)) :
  NoDup listing.*1 →
  ∃ c, crawl listing = Ok c
       ∧ keys c = filter (λ k, endswith k ".html") listing.*1.
Proof.
  intros Hnd. destruct (crawl_Ok listing) as (c & Hc & Hk & _).
  exists c. split; [done|]. by rewrite Hk, crawl_read_keys_NoDup.
Qed.

Lemma crawl_keys_witness :
  ∃ c, crawl [("1.html", ["2.html"]); ("notes.txt", []); ("2.html", [])]%string = Ok c
       ∧ keys c = filter (λ k, endswith k ".html")
                    ([("1.html", ["2.html"]); ("notes.txt", []);
                      ("2.html", [])]%string : list (string * list string)).*1.
Proof. apply crawl_keys. compute_done. Defined.

(** X17.  A page keeps exactly the links found in its file that name another
    [.html] file of the directory: links to itself, to other kinds of files
    and to files that are not there are dropped (a page left without links
    becomes a dead end). *)
Theorem crawl_links (listing : list (string * list string)) (f : string)
    (ls : list string) :
  NoDup listing.*1 → (f, ls) ∈ listing → endswith f ".html" →
  ∃ c L, crawl listing = Ok c ∧ dict_lookup c f = Some L
         ∧ ∀ l, l ∈ L ↔ l ∈ ls ∧ l ≠ f ∧ endswith l ".html" ∧ l ∈ listing.*1.
Proof.
  intros Hnd Hin Hf. destruct (crawl_Ok listing) as (c & Hc & Hk & Hl).
  exists c, (filter (λ link, link ∈ keys c) (list_to_set ls ∖ {[f]})).
  split_and!; [done| |].
  - by rewrite Hl, (crawl_read_lookup_NoDup listing f ls).
  - intros l. rewrite elem_of_filter, Hk, crawl_read_keys.
    rewrite elem_of_difference, elem_of_list_to_set, elem_of_singleton.
    split.
    + intros [[? ?] [? ?]]. auto.
    + intros (? & ? & ? & ?). auto.
Qed.

Lemma crawl_links_witness :
  ∃ c L,
    crawl [("1.html", ["2.html"; "1.html"; "x.html"]); ("2.html", [])]%string = Ok c
    ∧ dict_lookup c "1.html" = Some L
    ∧ ∀ l, l ∈ L ↔ l ∈ ["2.html"; "1.html"; "x.html"]%string ∧ l ≠ "1.html"%string
                    ∧ endswith l ".html"
                    ∧ l ∈ ([("1.html", ["2.html"; "1.html"; "x.html"]);
                            ("2.html", [])]%string : list (string * list string)).*1.
Proof. apply crawl_links; [compute_done|left|done]. Defined.

(** ** [main]: the estimators on a crawled corpus *)

(** X18.  On the corpus crawled from a directory with at least one [.html]
    file the iterative estimator, called with the damping factor [0.85] as
    [main] does, stops and returns a rank for every page of the corpus. *)
Theorem main_iterate_pagerank (listing : list (string * list string)) (f : string) :
  f ∈ listing.*1 → endswith f ".html" →
  ∃ c fuel m,
    crawl listing = Ok c
    ∧ iterate_pagerank fuel c DAMPING = Some (Ok m)
    ∧ keys m = keys c ∧ f ∈ keys m
    ∧ Forall (λ v, 0 ≤ v) (values m).
Proof.
  intros Hin Hf. destruct (crawl_Ok listing) as (c & Hc & Hk & _).
  pose proof (crawl_valid_corpus listing c Hc) as Hv.
  assert (f ∈ keys c) as Hfc by (rewrite Hk; by apply crawl_read_keys).
  assert (c ≠ []) as Hne by (intros ->; by apply elem_of_nil in Hfc).
  destruct (iterate_pagerank_returns c DAMPING (proj1 Hv) Hne) as (fuel & m & Hm);
    [done..|].
  destruct (iterate_pagerank_nonneg fuel c DAMPING m Hv Hne) as [Hkm Hpos]; [done..|].
  exists c, fuel, m. split_and!; [done..|by rewrite Hkm|done].
Qed.

Lemma main_iterate_pagerank_witness :
  ∃ c fuel m,
    crawl [("1.html", ["2.html"]); ("2.html", [])]%string = Ok c
    ∧ iterate_pagerank fuel c DAMPING = Some (Ok m)
    ∧ keys m = keys c ∧ "1.html"%string ∈ keys m
    ∧ Forall (λ v, 0 ≤ v) (values m).
Proof. apply main_iterate_pagerank; [left|done]. Defined.

(** X19.  When every [.html] file of the directory has a link to another
    [.html] file of the directory, the sampler, called with the damping
    factor [0.85] and [10000] samples as [main] does, returns for every page
    of the corpus the quotient of its visit counter by [10000]; the counters
    are not negative and sum to [10000], so that in exact arithmetic the
    estimates sum to one.  The program rounds each quotient to binary64, and
    rounded quotients need not sum to one exactly (see
    [binary64_quotients_sum]). *)
Theorem main_sample_pagerank (listing : list (string * list string)) (f : string)
    (g : rng) :
  NoDup listing.*1 → f ∈ listing.*1 → endswith f ".html" →
  (∀ k ls, (k, ls) ∈ listing → endswith k ".html" →
           ∃ l, l ∈ ls ∧ l ≠ k ∧ endswith l ".html" ∧ l ∈ listing.*1) →
  ∃ c cd m,
    crawl listing = Ok c
    ∧ sample_counts g c DAMPING SAMPLES = Ok cd
    ∧ keys cd = keys c
    ∧ Forall (λ k, 0 ≤ k)%Z (values cd) ∧ Zsum (values cd) = SAMPLES
    ∧ sample_pagerank g c DAMPING SAMPLES = Ok m
    ∧ m = map (λ e, (e.1, Qc_of_Z e.2 / Qc_of_Z SAMPLES)) cd
    ∧ keys m = keys c ∧ Qcsum (values m) = 1.
Proof.
  intros Hnd Hin Hf Hlinks. destruct (crawl_Ok listing) as (c & Hc & Hk & Hl).
  pose proof (crawl_valid_corpus listing c Hc) as Hv.
  assert (f ∈ keys c) as Hfc by (rewrite Hk; by apply crawl_read_keys).
  assert (c ≠ []) as Hne by (intros ->; by apply elem_of_nil in Hfc).
  assert (no_dead_end c) as Hnde.
  { apply Forall_forall. intros [k L] Hkin. cbn [snd].
    apply elem_of_dict_lookup in Hkin as HkL; [|apply Hv].
    assert (k ∈ keys c) as Hkc by (by eapply dict_lookup_Some_keys).
    rewrite Hk, crawl_read_keys in Hkc. destruct Hkc as [Hkh Hkn].
    apply list_elem_of_fmap in Hkn as ([k' ls] & -> & Hkls). cbn [fst] in *.
    destruct (Hlinks k' ls Hkls Hkh) as (l & Hl1 & Hl2 & Hl3 & Hl4).
    rewrite Hl, (crawl_read_lookup_NoDup listing k' ls) in HkL by done.
    injection HkL as <-.
    assert (l ∈ filter (λ link, link ∈ keys c) (list_to_set ls ∖ {[k']} : gset string))
      as Hlin.
    { rewrite elem_of_filter, Hk, crawl_read_keys. split; [done|].
      apply elem_of_difference. split; [by apply elem_of_list_to_set|].
      by rewrite elem_of_singleton. }
    intros Heq. rewrite Heq in Hlin. by apply not_elem_of_empty in Hlin. }
  destruct (sample_counts_Ok g c DAMPING SAMPLES Hv Hne Hnde) as [cd Hcd].
  pose proof (sample_pagerank_normalise g c DAMPING SAMPLES cd Hv ltac:(done) Hcd) as Hm.
  destruct (sample_pagerank_inv g c DAMPING SAMPLES _ Hv ltac:(done) Hm) as (Hkm & _ & Hs).
  destruct (sample_counts_inv g c DAMPING SAMPLES cd Hv Hcd) as (Hkc & Hz & Hp).
  eexists c, cd, _. split_and!; done.
Qed.

Lemma main_sample_pagerank_witness :
  ∃ c cd m,
    crawl [("1.html", ["2.html"]); ("2.html", ["1.html"])]%string = Ok c
    ∧ sample_counts (λ k, Z.of_nat k) c DAMPING SAMPLES = Ok cd
    ∧ keys cd = keys c
    ∧ Forall (λ k, 0 ≤ k)%Z (values cd) ∧ Zsum (values cd) = SAMPLES
    ∧ sample_pagerank (λ k, Z.of_nat k) c DAMPING SAMPLES = Ok m
    ∧ m = map (λ e, (e.1, Qc_of_Z e.2 / Qc_of_Z SAMPLES)) cd
    ∧ keys m = keys c ∧ Qcsum (values m) = 1.
Proof.
  apply (main_sample_pagerank _ "1.html"); [compute_done|left|done|].
  intros k ls Hin _.
  apply elem_of_cons in Hin as [[= -> ->]|Hin];
    [exists "2.html"%string; split_and!; [left|done|done|compute_done]|].
  apply elem_of_cons in Hin as [[= -> ->]|Hin];
    [exists "1.html"%string; split_and!; [left|done|done|compute_done]|].
  by apply elem_of_nil in Hin.
Defined.

(** The counters [8755], [1] and [1244] sum to [10000]; their binary64
    quotients by [10000] do not sum to one. *)
Example binary64_quotients_sum :
  ∃ s, float_sum [(8755 / 10000)%float; (1 / 10000)%float; (1244 / 10000)%float]
       = Some s
       ∧ s ≠ 1 ∧ (8755 + 1 + 1244 = 10000)%Z.
Proof.
  eexists. split_and!.
  - vm_compute. reflexivity.
  - by vm_compute.
  - done.
Qed.
